(** * neofs-s3-gw: the objects-list cache, the tree node data model and
      tree-request signing

    Shallow embedding of
      - api/cache/objectslist.go   (ObjectsListCache over a gcache LRU cache),
      - api/data/tree.go           (NodeVersion and BaseNodeVersion),
      - the tree client's signData / signRequest,
    with the properties of the natural-language specification proved about
    the embedded definitions. *)

From Stdlib Require Import List String Ascii ZArith Bool Lia.
From Stdlib Require Import DecimalString DecimalNat.
Import ListNotations.

Set Implicit Arguments.

Local Open Scope Z_scope.

(** ** Go's [time] package, as far as the cache uses it *)

Module time.

(** An instant, in nanoseconds on the clock the process reads. *)
Definition Time := Z.
(** [time.Duration]: a count of nanoseconds. *)
Definition Duration := Z.

Definition Nanosecond : Duration := 1.
Definition Second : Duration := 1000000000 * Nanosecond.

Definition Add (t : Time) (d : Duration) : Time := t + d.
Definition Before (t u : Time) : bool := t <? u.

End time.

(** ** Go's [strings.HasPrefix] *)

Module strings.

(** [HasPrefix s p] reports whether [s] begins with [p]. *)
Definition HasPrefix (s p : string) : bool := String.prefix p s.

(** [p] is a string-prefix of [s], said without reference to the code. *)
Definition isPrefixOf (p s : string) : Prop := exists rest, s = (p ++ rest)%string.

End strings.

(** ** Errors and log records *)

Inductive error : Type :=
| KeyNotFoundError
| Errorf (msg : string).

Inductive result (A : Type) : Type :=
| Ok (a : A)
| Err (e : error).
Arguments Ok {A} a.
Arguments Err {A} e.

(** What a [*zap.Logger] has been asked to write. *)
Inductive Level : Type := WarnLevel | ErrorLevel | InfoLevel.

Record LogEntry : Type := mkLogEntry {
  entry_level : Level;
  entry_msg : string;
  entry_fields : list (string * string)
}.

Definition Logger := list LogEntry.

Definition Warn (lg : Logger) (msg : string) (fields : list (string * string)) : Logger :=
  lg ++ [mkLogEntry WarnLevel msg fields].

(** ** github.com/bluele/gcache: the LRU cache with expiration *)

(** Modelled from the spec: the gcache library is imported by
    api/cache/objectslist.go and is not part of the repository.  The model
    is the cache the constructor asks for, [New(size).LRU().Expiration(d)]:
    a least-recently-used list of items with a fixed capacity, every item
    stamped on [Set] with the instant after which it is expired.  The
    library's item map is the set of keys of the eviction list; its hit and
    miss counters are not observed by the repository and are left out. *)
Module gcache.

Section Cache.

Variables K V : Type.
Variable K_eq_dec : forall a b : K, {a = b} + {a <> b}.

Record lruItem : Type := mkItem {
  key : K;
  value : V;
  expiration : option time.Time
}.

(** [evictList]: front (head) is the most recently used item. *)
Record LRUCache : Type := mkCache {
  size : Z;
  cfg_expiration : option time.Duration;
  evictList : list lruItem
}.

Definition IsExpired (it : lruItem) (now : time.Time) : bool :=
  match expiration it with
  | None => false
  | Some e => time.Before e now
  end.

Definition keyIs (k : K) (it : lruItem) : bool :=
  if K_eq_dec k (key it) then true else false.

(** [c.items[k]] *)
Definition lookup (l : list lruItem) (k : K) : option lruItem :=
  find (keyIs k) l.

(** [removeElement] of the item stored under [k] *)
Definition removeKey (l : list lruItem) (k : K) : list lruItem :=
  filter (fun it => negb (keyIs k it)) l.

(** [evict(1)]: drops the item at the back of the list, if any. *)
Definition evict1 (l : list lruItem) : list lruItem := removelast l.

Definition with_list (c : LRUCache) (l : list lruItem) : LRUCache :=
  mkCache (size c) (cfg_expiration c) l.

(** [New(size).LRU().Expiration(d).Build()]; [Build] panics ([None]) when
    the size is not positive. *)
Definition Build (sz : Z) (d : time.Duration) : option LRUCache :=
  if sz <=? 0 then None else Some (mkCache sz (Some d) []).

Definition Set_ (c : LRUCache) (now : time.Time) (k : K) (v : V)
  : LRUCache * result unit :=
  let stamp (old : option time.Time) :=
    match cfg_expiration c with
    | Some d => Some (time.Add now d)
    | None => old
    end in
  match lookup (evictList c) k with
  | Some it =>
      (with_list c (mkItem k v (stamp (expiration it)) :: removeKey (evictList c) k),
       Ok tt)
  | None =>
      let l := if Z.of_nat (List.length (evictList c)) >=? size c
               then evict1 (evictList c) else evictList c in
      (with_list c (mkItem k v (stamp None) :: l), Ok tt)
  end.

Definition Get (c : LRUCache) (now : time.Time) (k : K)
  : LRUCache * result V :=
  match lookup (evictList c) k with
  | Some it =>
      if negb (IsExpired it now)
      then (with_list c (it :: removeKey (evictList c) k), Ok (value it))
      else (with_list c (removeKey (evictList c) k), Err KeyNotFoundError)
  | None => (c, Err KeyNotFoundError)
  end.

(** [has] *)
Definition has (c : LRUCache) (k : K) (now : time.Time) : bool :=
  match lookup (evictList c) k with
  | Some it => negb (IsExpired it now)
  | None => false
  end.

(** [Keys(checkExpired)].  The library ranges over a Go map, whose order is
    not specified; the keys come here in the order of the list. *)
Definition Keys (checkExpired : bool) (c : LRUCache) (now : time.Time) : list K :=
  map key
    (filter (fun it => negb checkExpired || has c (key it) now) (evictList c)).

Definition Remove (c : LRUCache) (k : K) : LRUCache * bool :=
  match lookup (evictList c) k with
  | Some _ => (with_list c (removeKey (evictList c) k), true)
  | None => (c, false)
  end.

(** The item map has one item per key. *)
Definition wf (c : LRUCache) : Prop := NoDup (map key (evictList c)).

End Cache.

End gcache.

(** ** Identifiers of the NeoFS SDK *)

Module oid.

(** [oid.ID] is a 32-byte array. *)
Definition ID := list Byte.byte.

Definition zero : ID := repeat Byte.x00 32.

Definition eq_dec : forall a b : ID, {a = b} + {a <> b} :=
  list_eq_dec Byte.byte_eq_dec.

Definition eqb (a b : ID) : bool := if eq_dec a b then true else false.

End oid.

Module cid.

(** The container id type is declared in the SDK; the cache uses nothing
    of it but its text form, [EncodeToString]. *)
Class Encoding (ID : Type) : Type := EncodeToString : ID -> string.

(** Container ids named by their text form, for worked examples. *)
Definition text_id : Encoding string := fun s => s.

End cid.

Module user.

(** [user.ID] is a byte array; only stored, never inspected here. *)
Definition ID := list Byte.byte.

End user.

(** ** api/cache/objectslist.go *)

Module cache.

Local Open Scope string_scope.

(** ObjectsListKey is a key to find a ObjectsListCache's entry. *)
Record ObjectsListKey : Type := mkObjectsListKey {
  cid : string;
  prefix : string;
  latestOnly : bool
}.

Definition ObjectsListKey_eq_dec :
  forall a b : ObjectsListKey, {a = b} + {a <> b}.
Proof. decide equality; [apply bool_dec | apply string_dec | apply string_dec]. Defined.

(** The cache stores [interface{}] keys and values: the dynamic type is
    part of the value.  [KForeign] and [VForeign] stand for values of any
    other Go type, named by what [%T] prints for them. *)
Inductive Key : Type :=
| KObjectsList (k : ObjectsListKey)
| KForeign (tyname : string) (repr : string).

Inductive Value : Type :=
| VIDs (ids : list oid.ID)
| VForeign (tyname : string).

Definition Key_eq_dec : forall a b : Key, {a = b} + {a <> b}.
Proof. decide equality; try apply string_dec; apply ObjectsListKey_eq_dec. Defined.

(** [fmt.Sprintf("%T", v)] *)
Definition typeOfValue (v : Value) : string :=
  match v with
  | VIDs _ => "[]oid.ID"
  | VForeign t => t
  end.

Definition typeOfKey (k : Key) : string :=
  match k with
  | KObjectsList _ => "cache.ObjectsListKey"
  | KForeign t _ => t
  end.

Definition GCache := gcache.LRUCache Key Value.

(** ObjectsListCache contains cache for ListObjects and ListObjectVersions.
    [logger] holds what has been written to the zap logger so far. *)
Record ObjectsListCache : Type := mkObjectsListCache {
  cache : GCache;
  logger : Logger
}.

(** Modelled from the spec: the [Config] struct is declared in another file
    of package cache; its fields are the ones [DefaultObjectsListConfig]
    fills and [NewObjectsListCache] reads. *)
Record Config : Type := mkConfig {
  Size : Z;
  Lifetime : time.Duration;
  Logger_ : Logger
}.

(** DefaultObjectsListCacheLifetime is a default lifetime of entries in
    cache of ListObjects. *)
Definition DefaultObjectsListCacheLifetime : time.Duration := time.Second * 60.
(** DefaultObjectsListCacheSize is a default size of cache of ListObjects
    (the constant [1e5]). *)
Definition DefaultObjectsListCacheSize : Z := 10 ^ 5.

Definition DefaultObjectsListConfig (lg : Logger) : Config :=
  mkConfig DefaultObjectsListCacheSize DefaultObjectsListCacheLifetime lg.

(** [None]: the call panics inside [Build]. *)
Definition NewObjectsListCache (config : Config) : option ObjectsListCache :=
  match gcache.Build Key Value (Size config) (Lifetime config) with
  | Some gc => Some (mkObjectsListCache gc (Logger_ config))
  | None => None
  end.

(** Get returns a list of ObjectInfo; [None] is Go's [nil]. *)
Definition Get (l : ObjectsListCache) (now : time.Time) (key : ObjectsListKey)
  : ObjectsListCache * option (list oid.ID) :=
  match gcache.Get Key_eq_dec (cache l) now (KObjectsList key) with
  | (gc, Err _) => (mkObjectsListCache gc (logger l), None)
  | (gc, Ok entry) =>
      match entry with
      | VIDs res => (mkObjectsListCache gc (logger l), Some res)
      | _ =>
          (mkObjectsListCache gc
             (Warn (logger l) "invalid cache entry type"
                [("actual", typeOfValue entry); ("expected", "[]oid.ID")]),
           None)
      end
  end.

(** Put puts a list of objects to cache. *)
Definition Put (l : ObjectsListCache) (now : time.Time) (key : ObjectsListKey)
    (oids : list oid.ID) : ObjectsListCache * result unit :=
  if (List.length oids =? 0)%nat
  then (l, Err (Errorf ("list is empty, cid: " ++ cid key ++ ", prefix: " ++ prefix key)))
  else
    let '(gc, r) := gcache.Set_ Key_eq_dec (cache l) now (KObjectsList key) (VIDs oids) in
    (mkObjectsListCache gc (logger l), r).

(** The test of the loop body: the entry under [k] lists the container and
    a prefix of the object's name. *)
Definition containsObject (cidStr objectName : string) (k : ObjectsListKey) : bool :=
  String.eqb cidStr (cid k) && strings.HasPrefix objectName (prefix k).

(** The body of the loop over the keys. *)
Definition cleanStep (cidStr objectName : string) (l : ObjectsListCache) (key : Key)
  : ObjectsListCache :=
  match key with
  | KObjectsList k =>
      if containsObject cidStr objectName k
      then mkObjectsListCache (fst (gcache.Remove Key_eq_dec (cache l) (KObjectsList k)))
             (logger l)
      else l
  | _ =>
      mkObjectsListCache (cache l)
        (Warn (logger l) "invalid cache key type"
           [("actual", typeOfKey key); ("expected", "cache.ObjectsListKey")])
  end.

(** CleanCacheEntriesContainingObject deletes entries containing specified
    object. *)
Definition CleanCacheEntriesContainingObject {CID : Type} {E : cid.Encoding CID}
    (l : ObjectsListCache) (now : time.Time) (objectName : string) (cnr : CID)
  : ObjectsListCache :=
  let cidStr := cid.EncodeToString cnr in
  let keys := gcache.Keys Key_eq_dec true (cache l) now in
  fold_left (cleanStep cidStr objectName) keys l.

(** CreateObjectsListCacheKey returns ObjectsListKey with the given CID,
    prefix and latestOnly flag. *)
Definition CreateObjectsListCacheKey {CID : Type} {E : cid.Encoding CID}
    (cnr : CID) (prefix : string) (latestOnly : bool) : ObjectsListKey :=
  mkObjectsListKey (cid.EncodeToString cnr) prefix latestOnly.

(** The items the cache holds. *)
Definition items (l : ObjectsListCache) : list (gcache.lruItem Key Value) :=
  gcache.evictList (cache l).

(** The loop test, on keys of any dynamic type. *)
Definition hit (cidStr objectName : string) (k : Key) : bool :=
  match k with
  | KObjectsList k => containsObject cidStr objectName k
  | KForeign _ _ => false
  end.

(** What one turn of the loop does to the items. *)
Definition stepItems (cidStr objectName : string)
    (l : list (gcache.lruItem Key Value)) (k : Key) :=
  if hit cidStr objectName k then gcache.removeKey Key_eq_dec l k else l.

Definition inb (q : Key) (ks : list Key) : bool :=
  if in_dec Key_eq_dec q ks then true else false.

(** Modelled from the spec: the listing flow that writes a computed id
    list back into the cache belongs to the layer package, not to this one.
    Following the spec's error taxonomy, a failed [Put] is recovered there
    by skipping the cache write: the listing goes on with the ids it
    computed and the error goes no further. *)
Definition cacheListing (l : ObjectsListCache) (now : time.Time) (key : ObjectsListKey)
    (ids : list oid.ID) : ObjectsListCache * list oid.ID :=
  match Put l now key ids with
  | (l', Ok _) => (l', ids)
  | (l', Err _) => (l', ids)
  end.

(** The calls a client of the cache can make, and the states they lead to. *)
Inductive Call (CID : Type) : Type :=
| CallGet (now : time.Time) (key : ObjectsListKey)
| CallPut (now : time.Time) (key : ObjectsListKey) (oids : list oid.ID)
| CallClean (now : time.Time) (objectName : string) (cnr : CID).
Arguments CallGet {CID} now key.
Arguments CallPut {CID} now key oids.
Arguments CallClean {CID} now objectName cnr.

Definition call {CID : Type} {E : cid.Encoding CID} (l : ObjectsListCache) (c : Call CID)
  : ObjectsListCache :=
  match c with
  | CallGet now key => fst (Get l now key)
  | CallPut now key oids => fst (Put l now key oids)
  | CallClean now objectName cnr => CleanCacheEntriesContainingObject l now objectName cnr
  end.

Definition calls {CID : Type} {E : cid.Encoding CID} (l : ObjectsListCache)
    (cs : list (Call CID)) : ObjectsListCache :=
  fold_left call cs l.

(** What the configuration promises of a cache state: the capacity and the
    lifetime are the configured ones, the cache holds no more items than its
    capacity, and one item per key. *)
Definition bounded (config : Config) (l : ObjectsListCache) : Prop :=
  gcache.size (cache l) = Size config /\
  gcache.cfg_expiration (cache l) = Some (Lifetime config) /\
  (Z.of_nat (List.length (items l)) <= Size config)%Z /\
  gcache.wf (cache l).

End cache.

(** ** The scenario of the specification's testable properties

    Container C1; the listing of prefix "a/" is cached as [id1]; then
    object "a/b/d.txt" is written. *)

Module scenario.

Import cache.
Local Open Scope string_scope.

Definition id1 : oid.ID := repeat Byte.x01 32.
Definition id2 : oid.ID := repeat Byte.x02 32.

Definition C1 : string := "C1".

Definition fresh : ObjectsListCache :=
  mkObjectsListCache
    (gcache.mkCache DefaultObjectsListCacheSize (Some DefaultObjectsListCacheLifetime) [])
    [].

Definition key_a : ObjectsListKey :=
  CreateObjectsListCacheKey (E := cid.text_id) C1 "a/" false.

Definition key_root : ObjectsListKey :=
  CreateObjectsListCacheKey (E := cid.text_id) C1 "" true.

Definition key_z : ObjectsListKey :=
  CreateObjectsListCacheKey (E := cid.text_id) C1 "z/" false.

(** The cache after the three listings were stored at instants 0, 1, 2. *)
Definition listed : ObjectsListCache :=
  let l1 := fst (Put fresh 0 key_a [id1]) in
  let l2 := fst (Put l1 1 key_root [id1; id2]) in
  fst (Put l2 2 key_z [id2]).

(** A cache in which some other code stored a string under [key_a]. *)
Definition corrupted : ObjectsListCache :=
  mkObjectsListCache
    (gcache.mkCache DefaultObjectsListCacheSize (Some DefaultObjectsListCacheLifetime)
       [gcache.mkItem (KObjectsList key_a) (VForeign "string") (Some 60000000000%Z)])
    [].

End scenario.

(** ** The objects-list cache with its logger as the pointer it is *)

Module zap.

(** A [*zap.Logger]: [None] is the nil pointer, [Some w] a logger with what
    has been written to it. *)
Definition LoggerPtr : Type := option Logger.

(** The method [Warn] of the logger reads through the pointer: on the nil pointer it
    panics, which is [None] here. *)
Definition Warn (lg : LoggerPtr) (msg : string) (fields : list (string * string))
  : option LoggerPtr :=
  match lg with
  | Some w => Some (Some (Warn w msg fields))
  | None => None
  end.

End zap.

(** [cache.Get] above is Get on a cache whose logger is there.  Here the
    [logger] field is the pointer of the source, which the constructor
    copies from the configuration without a check. *)
Module cache_ptr.

Local Open Scope string_scope.

Record Config : Type := mkConfig {
  Size : Z;
  Lifetime : time.Duration;
  Logger_ : zap.LoggerPtr
}.

Record ObjectsListCache : Type := mkObjectsListCache {
  cache : cache.GCache;
  logger : zap.LoggerPtr
}.

(** What a call gives its caller: the cache after the call and the value
    returned, or a run-time panic. *)
Inductive outcome (A : Type) : Type :=
| Returns (l : ObjectsListCache) (a : A)
| Panics.
Arguments Returns {A} l a.
Arguments Panics {A}.

(** [None]: the call panics inside [Build]. *)
Definition NewObjectsListCache (config : Config) : option ObjectsListCache :=
  match gcache.Build cache.Key cache.Value (Size config) (Lifetime config) with
  | Some gc => Some (mkObjectsListCache gc (Logger_ config))
  | None => None
  end.

(** Get returns a list of ObjectInfo; [None] is Go's [nil]. *)
Definition Get (l : ObjectsListCache) (now : time.Time) (key : cache.ObjectsListKey)
  : outcome (option (list oid.ID)) :=
  match gcache.Get cache.Key_eq_dec (cache l) now (cache.KObjectsList key) with
  | (gc, Err _) => Returns (mkObjectsListCache gc (logger l)) None
  | (gc, Ok entry) =>
      match entry with
      | cache.VIDs res => Returns (mkObjectsListCache gc (logger l)) (Some res)
      | _ =>
          match zap.Warn (logger l) "invalid cache entry type"
                  [("actual", cache.typeOfValue entry); ("expected", "[]oid.ID")] with
          | Some lg => Returns (mkObjectsListCache gc lg) None
          | None => Panics
          end
      end
  end.

(** The cache of the first model, its logger being there. *)
Definition logged (l : cache.ObjectsListCache) : ObjectsListCache :=
  mkObjectsListCache (cache.cache l) (Some (cache.logger l)).

(** A cache made with no logger in its configuration, into whose gcache
    code of the package has stored a string under the key of the "a/"
    listing. *)
Definition nil_config : Config :=
  mkConfig cache.DefaultObjectsListCacheSize cache.DefaultObjectsListCacheLifetime None.

Definition stored_string (l : ObjectsListCache) : ObjectsListCache :=
  mkObjectsListCache
    (fst (gcache.Set_ cache.Key_eq_dec (cache l) 0
            (cache.KObjectsList scenario.key_a) (cache.VForeign "string")))
    (logger l).

Definition corrupted_nil : option ObjectsListCache :=
  option_map stored_string (NewObjectsListCache nil_config).

Definition corrupted_logged : option ObjectsListCache :=
  option_map stored_string
    (NewObjectsListCache
       (mkConfig cache.DefaultObjectsListCacheSize cache.DefaultObjectsListCacheLifetime
          (Some []))).

End cache_ptr.

(** ** api/data/tree.go *)

Module data.

(** DeleteMarkerInfo is used to save object info if node in the tree service
    is delete marker. *)
Record DeleteMarkerInfo : Type := mkDeleteMarkerInfo {
  FilePath : string;
  Created : time.Time;
  Owner : user.ID
}.

(** BaseNodeVersion is minimal node info from tree service.  [ID] and
    [Timestamp] are [uint64]; [OID] is a value of the array type [oid.ID],
    not a pointer. *)
Record BaseNodeVersion : Type := mkBaseNodeVersion {
  ID : N;
  OID : oid.ID;
  Timestamp : N
}.

(** NodeVersion represent node from tree service.  [Base] is the embedded
    [BaseNodeVersion]; [DeleteMarker] is a pointer, [None] when nil. *)
Record NodeVersion : Type := mkNodeVersion {
  Base : BaseNodeVersion;
  DeleteMarker : option DeleteMarkerInfo;
  IsUnversioned : bool
}.

End data.

(** ** The tree client's request signing *)

Module neofs.

Definition bytes := list Byte.byte.

Section Signing.

(** The collaborators of the two functions, all outside the repository:
    [proto.Marshal], [crypto.Sign] (ECDSA, which draws randomness: [Entropy]
    is what one call reads from [rand.Reader]) and
    [c.key.PublicKey().Bytes()]. *)
Variables Message PrivateKey Entropy : Type.
Variable Marshal : Message -> result bytes.
Variable Sign : PrivateKey -> bytes -> Entropy -> result bytes.
Variable PublicKeyBytes : PrivateKey -> bytes.

Record TreeClient : Type := mkTreeClient { key : PrivateKey }.

(** The request under construction; the callback [f] is the only thing that
    writes to it. *)
Variable Request : Type.

Definition signData (c : TreeClient) (rnd : Entropy) (buf : bytes)
    (f : bytes -> bytes -> Request -> Request) (req : Request)
  : Request * option error :=
  match Sign (key c) buf rnd with
  | Err err => (req, Some err)
  | Ok sign => (f (PublicKeyBytes (key c)) sign req, None)
  end.

Definition signRequest (c : TreeClient) (rnd : Entropy) (requestBody : Message)
    (f : bytes -> bytes -> Request -> Request) (req : Request)
  : Request * option error :=
  match Marshal requestBody with
  | Err err => (req, Some err)
  | Ok buf => signData c rnd buf f req
  end.

End Signing.

(** A stand-in for the collaborators, to run the two functions: messages
    are their own serialization unless empty; the "signature" is the key
    followed by the entropy and the data, and an empty key cannot sign. *)
Module example.

Definition Marshal (m : bytes) : result bytes :=
  match m with
  | [] => Err (Errorf "proto: Marshal called with nil")
  | _ => Ok m
  end.

Definition Sign (k : bytes) (buf : bytes) (rnd : bytes) : result bytes :=
  match k with
  | [] => Err (Errorf "invalid private key")
  | _ => Ok (k ++ rnd ++ buf)
  end.

Definition PublicKeyBytes (k : bytes) : bytes := rev k.

(** The request records every (key, sign) pair attached to it. *)
Definition attach (k s : bytes) (req : list (bytes * bytes)) : list (bytes * bytes) :=
  (k, s) :: req.

Definition client : TreeClient bytes := mkTreeClient [Byte.x01; Byte.x02].
Definition keyless : TreeClient bytes := mkTreeClient [].
Definition body : bytes := [Byte.x0a; Byte.x0b].
Definition rnd : bytes := [Byte.xff].

End example.

End neofs.

(** ** Sequences of calls on the objects-list cache *)

Module cache_states.

Import cache.

(** The call stores a list under [key]. *)
Definition putsKey {CID : Type} (key : ObjectsListKey) (c : Call CID) : bool :=
  match c with
  | CallPut _ k oids =>
      if ObjectsListKey_eq_dec key k then negb (List.length oids =? 0)%nat else false
  | _ => false
  end.

(** No call of the sequence stores a list under [key]. *)
Definition noPutOn {CID : Type} (key : ObjectsListKey) (cs : list (Call CID)) : bool :=
  forallb (fun c => negb (putsKey key c)) cs.

(** An item as [Put] makes them: an ObjectsListKey with a non-empty id list. *)
Definition wellTypedItem (it : gcache.lruItem Key Value) : bool :=
  match gcache.key it, gcache.value it with
  | KObjectsList _, VIDs (_ :: _) => true
  | _, _ => false
  end.

Definition wellTyped (l : ObjectsListCache) : bool :=
  forallb wellTypedItem (items l).

End cache_states.

(** ** A cache of two entries, filled *)

Module small.

Import cache.
Local Open Scope string_scope.

Definition config : Config := mkConfig 2 (time.Second * 60) [].

Definition empty : ObjectsListCache :=
  mkObjectsListCache (gcache.mkCache 2 (Some (time.Second * 60)) []) [].

(** "a/" was listed at instant 0, "z/" at instant 1. *)
Definition full : ObjectsListCache :=
  fst (Put (fst (Put empty 0 scenario.key_a [scenario.id1])) 1 scenario.key_z [scenario.id2]).

Definition item_a : gcache.lruItem Key Value :=
  gcache.mkItem (KObjectsList scenario.key_a) (VIDs [scenario.id1]) (Some 60000000000%Z).

Definition item_z : gcache.lruItem Key Value :=
  gcache.mkItem (KObjectsList scenario.key_z) (VIDs [scenario.id2]) (Some 60000000001%Z).

End small.

(** ** The gateway's settings: the peers of the connection pool *)

Module strconv.

(** [strconv.Itoa] of a non-negative int: its decimal digits. *)
Definition Itoa (i : nat) : string := NilEmpty.string_of_uint (Nat.to_uint i).

End strconv.

Module pool.

(** [pool.Peer]; the weight is a float64, which is carried around and never
    computed with. *)
Record Peer (W : Type) : Type := mkPeer {
  Address : string;
  Weight : W
}.
Arguments mkPeer {W} Address Weight.

End pool.

Module gate.

Local Open Scope string_scope.

Section Peers.

(** The settings are read through viper's [GetString] and [GetFloat64];
    a key that is not set reads as the empty string. *)
Variable W : Type.
Variable GetString : string -> string.
Variable GetFloat64 : string -> W.

(** ["peers." + strconv.Itoa(i) + "."] *)
Definition peerKey (i : nat) : string := ("peers." ++ strconv.Itoa i) ++ ".".

(** The loop [for i := 0; ; i++] of fetchPeers, from index [i] on; [fuel]
    bounds the number of turns and [None] says it was not enough. *)
Fixpoint fetchPeersFrom (fuel : nat) (i : nat) (l : Logger) (peers : list (pool.Peer W))
  : option (Logger * list (pool.Peer W)) :=
  match fuel with
  | O => None
  | S fuel' =>
      let key := peerKey i in
      let address := GetString (key ++ "address") in
      let weight := GetFloat64 (key ++ "weight") in
      if String.eqb address ""
      then Some (Warn l "skip, empty address" [], peers)
      else fetchPeersFrom fuel' (S i) l (peers ++ [pool.mkPeer address weight])%list
  end.

Definition fetchPeers (fuel : nat) (l : Logger) : option (Logger * list (pool.Peer W)) :=
  fetchPeersFrom fuel 0 l [].

(** The peer the settings describe at index [i]. *)
Definition peerAt (i : nat) : pool.Peer W :=
  pool.mkPeer (GetString (peerKey i ++ "address")) (GetFloat64 (peerKey i ++ "weight")).

End Peers.

(** Settings for worked examples: two peers, a gap at index 2, and a third
    peer at index 3. *)
Module example.

Definition GetString (k : string) : string :=
  if String.eqb k "peers.0.address" then "node1:8080"
  else if String.eqb k "peers.1.address" then "node2:8080"
  else if String.eqb k "peers.3.address" then "node4:8080"
  else "".

Definition GetFloat64 (k : string) : nat :=
  if String.eqb k "peers.0.weight" then 3%nat
  else if String.eqb k "peers.1.weight" then 1%nat
  else 0%nat.

Definition setKeys : list string :=
  ["peers.0.address"; "peers.1.address"; "peers.3.address"].

End example.

End gate.

(** ** Go's [encoding/hex], as far as LoadPublicKey uses it *)

Module hex.

Local Open Scope char_scope.

(** The value of a hexadecimal digit, upper or lower case. *)
Definition fromHexChar (c : ascii) : option nat :=
  let n := nat_of_ascii c in
  if (48 <=? n)%nat && (n <=? 57)%nat then Some (n - 48)%nat
  else if (97 <=? n)%nat && (n <=? 102)%nat then Some (n - 97 + 10)%nat
  else if (65 <=? n)%nat && (n <=? 70)%nat then Some (n - 65 + 10)%nat
  else None.

(** [hex.DecodeString]: [None] stands for any of its errors, a character
    that is not a hexadecimal digit or an odd length. *)
Fixpoint DecodeString (s : string) : option (list Byte.byte) :=
  match s with
  | EmptyString => Some []
  | String _ EmptyString => None
  | String p (String q rest) =>
      match fromHexChar p, fromHexChar q with
      | Some a, Some b =>
          match Byte.of_nat (a * 16 + b), DecodeString rest with
          | Some x, Some xs => Some (x :: xs)
          | _, _ => None
          end
      | _, _ => None
      end
  end.

(** The digits of [hex.EncodeToString]. *)
Definition hexDigit (n : nat) : ascii :=
  if (n <? 10)%nat then ascii_of_nat (48 + n) else ascii_of_nat (97 + (n - 10)).

Fixpoint EncodeToString (b : list Byte.byte) : string :=
  match b with
  | [] => EmptyString
  | x :: xs =>
      String (hexDigit (Byte.to_nat x / 16))
        (String (hexDigit (Byte.to_nat x mod 16)) (EncodeToString xs))
  end.

End hex.

(** ** authmate: the tokens of the gates *)

Module authmate.

Local Open Scope string_scope.

(** Errors: those of the libraries, and [fmt.Errorf("...: %w", err)] around
    them. *)
Inductive Error (X : Type) : Type :=
| External (e : X)
| Message (msg : string)
| Wrap (msg : string) (inner : Error X).
Arguments External {X} e.
Arguments Message {X} msg.
Arguments Wrap {X} msg inner.

(** What a function returning [(value, error)] gives its caller, which reads
    the value only when the error is nil; [Panic] is a run-time panic. *)
Inductive outcome (X A : Type) : Type :=
| Done (a : A)
| Failed (e : Error X)
| Panic.
Arguments Done {X A} a.
Arguments Failed {X A} e.
Arguments Panic {X A}.

(** What a loop that builds one token per key returns: all the tokens, in
    the order of the keys, or the error of the first key that fails. *)
Definition all_or_first_error {X K T : Type} (build : nat -> K -> outcome X T)
    (keys : list K) (r : outcome X (list T)) : Prop :=
  match r with
  | Done ts =>
      List.length ts = List.length keys /\
      forall j k, nth_error keys j = Some k ->
                  exists t, nth_error ts j = Some t /\ build j k = Done t
  | Failed e =>
      exists j k,
        nth_error keys j = Some k /\ build j k = Failed e /\
        forall j' k', (j' < j)%nat -> nth_error keys j' = Some k' ->
                      exists t, build j' k' = Done t
  | Panic => False
  end.

Section LoadPublicKey.

Variables X PublicKey : Type.
(** [crypto.UnmarshalPublicKey], nil being [None], and [%q]. *)
Variable UnmarshalPublicKey : list Byte.byte -> option PublicKey.
Variable Quote : string -> string.

(** LoadPublicKey returns ecdsa.PublicKey from hex string. *)
Definition LoadPublicKey (val : string) : outcome X PublicKey :=
  match hex.DecodeString val with
  | None =>
      Failed (Message ("unknown key format (" ++ Quote val ++ "), expect: hex-string"))
  | Some data =>
      match UnmarshalPublicKey data with
      | Some key => Done key
      | None => Failed (Message ("couldn't unmarshal public key (" ++ Quote val ++ ")"))
      end
  end.

End LoadPublicKey.

(** The eACL table of the SDK, as far as buildEACLTable fills it. *)
Inductive Operation : Type :=
| OperationGet | OperationHead | OperationPut | OperationDelete
| OperationSearch | OperationRange | OperationRangeHash.
Inductive Action : Type := ActionAllow | ActionDeny.
Inductive Role : Type := RoleUser | RoleSystem | RoleOthers.

Record EACLRecord : Type := mkEACLRecord {
  operation : option Operation;
  action : option Action;
  targets : list Role
}.

Record Table (CID : Type) : Type := mkTable {
  tableCID : option CID;
  records : list EACLRecord
}.
Arguments mkTable {CID} tableCID records.

(** A bearer token, with the fields buildBearerToken sets. *)
Record BearerToken (CID OwnerID Sig : Type) : Type := mkBearerToken {
  btTable : option (Table CID);
  btOwner : option OwnerID;
  btLifetime : N * N * N;
  btSignature : option Sig
}.
Arguments mkBearerToken {CID OwnerID Sig} btTable btOwner btLifetime btSignature.

(** A session token, with the fields buildSessionToken sets. *)
Record SessionToken (Ctx OwnerID Sig : Type) : Type := mkSessionToken {
  stContext : option Ctx;
  stID : list Byte.byte;
  stOwner : option OwnerID;
  stSessionKey : list Byte.byte;
  stSignature : option Sig
}.
Arguments mkSessionToken {Ctx OwnerID Sig} stContext stID stOwner stSessionKey stSignature.

Definition MaxUint64 : N := 18446744073709551615.

Section Tokens.

(** The collaborators, all outside the package: keys, wallets and owner ids,
    the JSON decoders of the eACL table and of the session context, the
    signatures (which draw randomness, [Entropy]), the UUID generator and the
    access box's gate data. *)
Variables X CID PrivateKey PublicKey Wallet OwnerID Ctx Sig Entropy GateData : Type.
(** Library calls that return [(value, error)]: [inr value] or [inl error]. *)
Variable NEO3WalletFromPublicKey : PublicKey -> X + Wallet.
Variable NewIDFromNeo3Wallet : Wallet -> OwnerID.
Variable PublicKeyOf : PrivateKey -> PublicKey.
Variable TableUnmarshalJSON : Table CID -> list Byte.byte -> Table CID * option X.
Variable NewContainerContext : Ctx.
Variable CtxUnmarshalJSON : Ctx -> list Byte.byte -> Ctx * option X.
Variable ForPut : Ctx -> Ctx.
Variable ApplyTo : option CID -> Ctx -> Ctx.
Variable SignBearer :
  PrivateKey -> Entropy -> BearerToken CID OwnerID Sig -> option Sig * option X.
Variable SignSession :
  PrivateKey -> Entropy -> SessionToken Ctx OwnerID Sig -> option Sig * option X.
Variable NewUUIDBinary : Entropy -> X + list Byte.byte.
Variable MarshalPublicKey : PublicKey -> list Byte.byte.
Variable NewGateData : PublicKey -> BearerToken CID OwnerID Sig -> GateData.
(** [gate.SessionToken = tok] *)
Variable setSessionToken : GateData -> SessionToken Ctx OwnerID Sig -> GateData.

Definition ownerIDFromNeoFSKey (key : PublicKey) : outcome X OwnerID :=
  match NEO3WalletFromPublicKey key with
  | inr wallet => Done (NewIDFromNeo3Wallet wallet)
  | inl e => Failed (External e)
  end.

Definition buildEACLTable (cid : CID) (eaclTable : list Byte.byte)
  : Table CID * option (Error X) :=
  let table := mkTable None [] in
  if negb (List.length eaclTable =? 0)%nat
  then match TableUnmarshalJSON table eaclTable with
       | (t, Some e) => (t, Some (External e))
       | (t, None) => (t, None)
       end
  else
    let record := mkEACLRecord (Some OperationGet) (Some ActionAllow) [RoleOthers] in
    (mkTable (Some cid) [record], None).

Definition buildContext (rules : list Byte.byte) : outcome X Ctx :=
  let sessionCtx := NewContainerContext in
  if negb (List.length rules =? 0)%nat
  then match CtxUnmarshalJSON sessionCtx rules with
       | (_, Some e) => Failed (Wrap "failed to read rules for session token" (External e))
       | (c, None) => Done c
       end
  else Done (ApplyTo None (ForPut sessionCtx)).

Definition buildBearerToken (key : PrivateKey) (table : Table CID) (gateKey : PublicKey)
    (rnd : Entropy) : outcome X (BearerToken CID OwnerID Sig) :=
  match ownerIDFromNeoFSKey gateKey with
  | Done oid =>
      let bearerToken := mkBearerToken (Some table) (Some oid) (MaxUint64, 0%N, 0%N) None in
      match SignBearer key rnd bearerToken with
      | (_, Some e) => Failed (External e)
      | (sig, None) => Done (mkBearerToken (Some table) (Some oid) (MaxUint64, 0%N, 0%N) sig)
      end
  | Failed e => Failed e
  | Panic => Panic
  end.

(** The loop of buildBearerTokens from the [i]-th key on; the [i]-th
    signature draws [rnd i]. *)
Fixpoint buildBearerTokensFrom (key : PrivateKey) (table : Table CID)
    (gatesKeys : list PublicKey) (rnd : nat -> Entropy) (i : nat)
    (bearerTokens : list (BearerToken CID OwnerID Sig))
  : outcome X (list (BearerToken CID OwnerID Sig)) :=
  match gatesKeys with
  | [] => Done bearerTokens
  | gateKey :: rest =>
      match buildBearerToken key table gateKey (rnd i) with
      | Done tkn => buildBearerTokensFrom key table rest rnd (S i) (bearerTokens ++ [tkn])
      | Failed e => Failed e
      | Panic => Panic
      end
  end.

Definition buildBearerTokens (key : PrivateKey) (table : Table CID)
    (gatesKeys : list PublicKey) (rnd : nat -> Entropy) :=
  buildBearerTokensFrom key table gatesKeys rnd 0 [].

Definition buildSessionToken (key : PrivateKey) (oid : OwnerID) (ctx : Ctx)
    (gateKey : PublicKey) (rndID rndSig : Entropy)
  : outcome X (SessionToken Ctx OwnerID Sig) :=
  match NewUUIDBinary rndID with
  | inr uid =>
      let tok := mkSessionToken (Some ctx) uid (Some oid) (MarshalPublicKey gateKey) None in
      match SignSession key rndSig tok with
      | (_, Some e) => Failed (External e)
      | (sig, None) =>
          Done (mkSessionToken (Some ctx) uid (Some oid) (MarshalPublicKey gateKey) sig)
      end
  | inl e => Failed (External e)
  end.

Fixpoint buildSessionTokensFrom (key : PrivateKey) (oid : OwnerID) (ctx : Ctx)
    (gatesKeys : list PublicKey) (rnd : nat -> Entropy * Entropy) (i : nat)
    (sessionTokens : list (SessionToken Ctx OwnerID Sig))
  : outcome X (list (SessionToken Ctx OwnerID Sig)) :=
  match gatesKeys with
  | [] => Done sessionTokens
  | gateKey :: rest =>
      match buildSessionToken key oid ctx gateKey (fst (rnd i)) (snd (rnd i)) with
      | Done tkn => buildSessionTokensFrom key oid ctx rest rnd (S i) (sessionTokens ++ [tkn])
      | Failed e => Failed e
      | Panic => Panic
      end
  end.

Definition buildSessionTokens (key : PrivateKey) (oid : OwnerID) (ctx : Ctx)
    (gatesKeys : list PublicKey) (rnd : nat -> Entropy * Entropy) :=
  buildSessionTokensFrom key oid ctx gatesKeys rnd 0 [].

(** IssueSecretOptions, the fields createTokens reads. *)
Record IssueSecretOptions : Type := mkIssueSecretOptions {
  NeoFSKey : PrivateKey;
  GatesPublicKeys : list PublicKey;
  EACLRules : list Byte.byte;
  ContextRules : list Byte.byte;
  SessionTkn : bool
}.

(** [gates[i] = NewGateData(gateKey, bearerTokens[i])] for the keys from
    index [i] on; an index out of range panics. *)
Fixpoint fillGates (gatesKeys : list PublicKey)
    (bearerTokens : list (BearerToken CID OwnerID Sig)) (i : nat)
  : outcome X (list GateData) :=
  match gatesKeys with
  | [] => Done []
  | gateKey :: rest =>
      match nth_error bearerTokens i with
      | None => Panic
      | Some tkn =>
          match fillGates rest bearerTokens (S i) with
          | Done gs => Done (NewGateData gateKey tkn :: gs)
          | other => other
          end
      end
  end.

(** [gates[i].SessionToken = sessionToken] for the session tokens from index
    [i] on; an index out of range panics. *)
Fixpoint setSessionTokens (gates : list GateData)
    (sessionTokens : list (SessionToken Ctx OwnerID Sig)) (i : nat)
  : outcome X (list GateData) :=
  match sessionTokens with
  | [] => Done gates
  | tok :: rest =>
      match nth_error gates i with
      | None => Panic
      | Some g =>
          setSessionTokens (firstn i gates ++ setSessionToken g tok :: skipn (S i) gates)
            rest (S i)
      end
  end.

Definition createTokens (options : IssueSecretOptions) (cid : CID)
    (rndB : nat -> Entropy) (rndS : nat -> Entropy * Entropy)
  : outcome X (list GateData) :=
  match buildEACLTable cid (EACLRules options) with
  | (_, Some e) => Failed (Wrap "failed to build eacl table" e)
  | (table, None) =>
      match buildBearerTokens (NeoFSKey options) table (GatesPublicKeys options) rndB with
      | Failed e => Failed (Wrap "failed to build bearer tokens" e)
      | Panic => Panic
      | Done bearerTokens =>
          match fillGates (GatesPublicKeys options) bearerTokens 0 with
          | Done gates =>
              if SessionTkn options
              then
                match buildContext (ContextRules options) with
                | Failed e => Failed (Wrap "failed to build context for session token" e)
                | Panic => Panic
                | Done sessionRules =>
                    match ownerIDFromNeoFSKey (PublicKeyOf (NeoFSKey options)) with
                    | Failed e => Failed e
                    | Panic => Panic
                    | Done oid =>
                        match buildSessionTokens (NeoFSKey options) oid sessionRules
                                (GatesPublicKeys options) rndS with
                        | Failed e => Failed e
                        | Panic => Panic
                        | Done sessionTokens => setSessionTokens gates sessionTokens 0
                        end
                    end
                end
              else Done gates
          | other => other
          end
      end
  end.

End Tokens.

(** Stand-ins for the collaborators, to run the functions: keys, wallets and
    owner ids are numbers, the key 0 has no wallet, no JSON is accepted, and
    a signature is the sum of the key and the entropy. *)
Module example.

Definition Bearer := BearerToken string nat nat.
Definition Session := SessionToken string nat nat.
Definition Gate : Type := nat * Bearer * option Session.

Definition NEO3WalletFromPublicKey (k : nat) : string + nat :=
  if (k =? 0)%nat then inl "invalid public key" else inr k.
Definition NewIDFromNeo3Wallet (w : nat) : nat := (w + 1000)%nat.
Definition PublicKeyOf (p : nat) : nat := (p + 1)%nat.
Definition TableUnmarshalJSON (t : Table string) (b : list Byte.byte)
  : Table string * option string := (t, Some "invalid character").
Definition NewContainerContext : string := "wildcard".
Definition CtxUnmarshalJSON (c : string) (b : list Byte.byte) : string * option string :=
  (c, Some "invalid character").
Definition ForPut (c : string) : string := c ++ ",put".
Definition ApplyTo (cnr : option string) (c : string) : string := c ++ ",any".
Definition SignBearer (p rnd : nat) (t : Bearer) : option nat * option string :=
  (Some (p + rnd)%nat, None).
Definition SignSession (p rnd : nat) (t : Session) : option nat * option string :=
  (Some (p + rnd)%nat, None).
Definition NewUUIDBinary (rnd : nat) : string + list Byte.byte :=
  inr (repeat Byte.x11 16).
Definition MarshalPublicKey (k : nat) : list Byte.byte := repeat Byte.x02 k.
Definition NewGateData (k : nat) (t : Bearer) : Gate := (k, t, None).
Definition setSessionToken (g : Gate) (s : Session) : Gate := (fst (fst g), snd (fst g), Some s).

Definition options (keys : list nat) (session : bool) : IssueSecretOptions nat nat :=
  mkIssueSecretOptions 42%nat keys [] [] session.

Definition run (keys : list nat) (session : bool) : outcome string (list Gate) :=
  createTokens NEO3WalletFromPublicKey NewIDFromNeo3Wallet PublicKeyOf
    TableUnmarshalJSON NewContainerContext CtxUnmarshalJSON ForPut ApplyTo
    SignBearer SignSession NewUUIDBinary MarshalPublicKey NewGateData setSessionToken
    (options keys session) "C1" (fun i => i) (fun i => (i, i)).

End example.


End authmate.

(** * Properties *)

(** ** Facts about the LRU cache *)

Module gcache_facts.

Section Facts.

Variables K V : Type.
Variable K_eq_dec : forall a b : K, {a = b} + {a <> b}.

Local Abbreviation item := (gcache.lruItem K V).
Local Abbreviation lookup := (gcache.lookup K_eq_dec).
Local Abbreviation removeKey := (gcache.removeKey K_eq_dec).
Local Abbreviation keyIs := (gcache.keyIs K_eq_dec).

Lemma keyIs_true (k : K) (it : item) : keyIs k it = true <-> gcache.key it = k.
Proof.
  unfold gcache.keyIs. destruct (K_eq_dec k (gcache.key it)); split; congruence.
Qed.

Lemma keyIs_false (k : K) (it : item) : keyIs k it = false <-> gcache.key it <> k.
Proof.
  unfold gcache.keyIs. destruct (K_eq_dec k (gcache.key it)); split; congruence.
Qed.

Lemma lookup_Some (l : list item) (k : K) (it : item) :
  lookup l k = Some it -> In it l /\ gcache.key it = k.
Proof.
  unfold gcache.lookup. intros H. apply find_some in H.
  destruct H as [Hin Hk]. split; [assumption | now apply keyIs_true].
Qed.

Lemma lookup_None (l : list item) (k : K) :
  lookup l k = None <-> (forall it, In it l -> gcache.key it <> k).
Proof.
  unfold gcache.lookup. split.
  - intros H it Hin. apply keyIs_false. exact (find_none _ _ H it Hin).
  - intros H. induction l as [|a l IH]; simpl; [reflexivity|].
    destruct (keyIs k a) eqn:E.
    + apply keyIs_true in E. exfalso. apply (H a); [now left | assumption].
    + apply IH. intros it Hin. apply H. now right.
Qed.

Lemma In_removeKey (l : list item) (k : K) (it : item) :
  In it (removeKey l k) <-> In it l /\ gcache.key it <> k.
Proof.
  unfold gcache.removeKey. rewrite filter_In, negb_true_iff, keyIs_false. tauto.
Qed.

Lemma lookup_removeKey_same (l : list item) (k : K) :
  lookup (removeKey l k) k = None.
Proof.
  apply lookup_None. intros it Hin. apply In_removeKey in Hin. tauto.
Qed.

Lemma lookup_removeKey_other (l : list item) (k k' : K) :
  k <> k' -> lookup (removeKey l k') k = lookup l k.
Proof.
  intros Hne. unfold gcache.lookup, gcache.removeKey.
  induction l as [|a l IH]; simpl; [reflexivity|].
  destruct (keyIs k' a) eqn:E'; simpl.
  - apply keyIs_true in E'.
    assert (keyIs k a = false) as -> by (apply keyIs_false; congruence).
    exact IH.
  - destruct (keyIs k a); [reflexivity | exact IH].
Qed.

Lemma removeKey_absent (l : list item) (k : K) :
  lookup l k = None -> removeKey l k = l.
Proof.
  intros H. unfold gcache.removeKey.
  induction l as [|a l IH]; simpl; [reflexivity|].
  unfold gcache.lookup in H. simpl in H.
  destruct (keyIs k a) eqn:E; [discriminate|].
  simpl. f_equal. apply IH. exact H.
Qed.

Lemma removeKey_comm (l : list item) (k k' : K) :
  removeKey (removeKey l k) k' = removeKey (removeKey l k') k.
Proof.
  unfold gcache.removeKey.
  induction l as [|a l IH]; simpl; [reflexivity|].
  destruct (keyIs k a) eqn:E; destruct (keyIs k' a) eqn:E'; simpl;
    rewrite ?E, ?E'; simpl; rewrite ?IH; reflexivity.
Qed.

Lemma removeKey_length (l : list item) (k : K) :
  (List.length (removeKey l k) <= List.length l)%nat.
Proof. apply filter_length_le. Qed.

Lemma map_key_removeKey_NoDup (l : list item) (k : K) :
  NoDup (map (@gcache.key K V) l) -> NoDup (map (@gcache.key K V) (removeKey l k)).
Proof.
  unfold gcache.removeKey. induction l as [|a l IH]; simpl; intros H; [constructor|].
  inversion H as [|x xs Hnin Hnd]; subst.
  destruct (keyIs k a); simpl; [now apply IH|].
  constructor; [|now apply IH].
  intros Hin. apply Hnin. apply in_map_iff in Hin. destruct Hin as [it [Hk Hin]].
  apply filter_In in Hin. apply in_map_iff. exists it. tauto.
Qed.

(** The result of [Remove] is the list without the key, whether or not the
    key was there. *)
Lemma Remove_list (c : gcache.LRUCache K V) (k : K) :
  gcache.evictList (fst (gcache.Remove K_eq_dec c k)) = removeKey (gcache.evictList c) k.
Proof.
  unfold gcache.Remove. destruct (lookup (gcache.evictList c) k) eqn:E; simpl.
  - reflexivity.
  - symmetry. now apply removeKey_absent.
Qed.

Lemma Remove_config (c : gcache.LRUCache K V) (k : K) :
  gcache.size (fst (gcache.Remove K_eq_dec c k)) = gcache.size c /\
  gcache.cfg_expiration (fst (gcache.Remove K_eq_dec c k)) = gcache.cfg_expiration c.
Proof.
  unfold gcache.Remove. destruct (lookup (gcache.evictList c) k); simpl; auto.
Qed.

(** An item expired at one instant is expired at every later one. *)
Lemma IsExpired_mono (it : item) (now now' : time.Time) :
  (now <= now')%Z -> gcache.IsExpired it now = true -> gcache.IsExpired it now' = true.
Proof.
  unfold gcache.IsExpired, time.Before. destruct (gcache.expiration it); [|discriminate].
  rewrite !Z.ltb_lt. lia.
Qed.

(** [Keys(true)] lists every key under which a live item is found. *)
Lemma Keys_live (c : gcache.LRUCache K V) (now : time.Time) (k : K) (it : item) :
  lookup (gcache.evictList c) k = Some it ->
  gcache.IsExpired it now = false ->
  In k (gcache.Keys K_eq_dec true c now).
Proof.
  intros Hl He. destruct (lookup_Some _ _ Hl) as [Hin Hk].
  unfold gcache.Keys. apply in_map_iff. exists it. split; [assumption|].
  apply filter_In. split; [assumption|].
  simpl. unfold gcache.has. rewrite Hk, Hl, He. reflexivity.
Qed.

(** The result of [Get], read off the item list. *)
Lemma Get_result (c : gcache.LRUCache K V) (now : time.Time) (k : K) :
  snd (gcache.Get K_eq_dec c now k) =
  match lookup (gcache.evictList c) k with
  | Some it => if gcache.IsExpired it now then Err KeyNotFoundError else Ok (gcache.value it)
  | None => Err KeyNotFoundError
  end.
Proof.
  unfold gcache.Get. destruct (lookup (gcache.evictList c) k) as [it|]; [|reflexivity].
  destruct (gcache.IsExpired it now); reflexivity.
Qed.

(** [Set] keeps one item per key. *)
Lemma Set_wf (c : gcache.LRUCache K V) (now : time.Time) (k : K) (v : V) :
  gcache.wf c -> gcache.wf (fst (gcache.Set_ K_eq_dec c now k v)).
Proof.
  unfold gcache.wf, gcache.Set_. intros H.
  destruct (lookup (gcache.evictList c) k) as [it|] eqn:E; simpl.
  - constructor; [|now apply map_key_removeKey_NoDup].
    intros Hin. apply in_map_iff in Hin. destruct Hin as [x [Hk Hx]].
    apply In_removeKey in Hx. tauto.
  - assert (Hsub : forall x, In x (if Z.of_nat (List.length (gcache.evictList c)) >=? gcache.size c
                        then gcache.evict1 (gcache.evictList c) else gcache.evictList c) ->
                       In x (gcache.evictList c)).
    { intros x. destruct (_ >=? _); [|auto]. unfold gcache.evict1.
      intros Hx. destruct (gcache.evictList c) as [|a l] eqn:El; [destruct Hx|].
      rewrite (app_removelast_last a (l:=a :: l)) by discriminate.
      apply in_or_app. now left. }
    constructor.
    + intros Hin. apply in_map_iff in Hin. destruct Hin as [x [Hk Hx]].
      apply Hsub in Hx. rewrite lookup_None in E. now apply (E x).
    + destruct (_ >=? _); [|assumption]. unfold gcache.evict1.
      destruct (gcache.evictList c) as [|a l] eqn:El; [constructor|].
      rewrite (app_removelast_last a (l:=a :: l)) in H by discriminate.
      rewrite map_app in H. now apply NoDup_app_remove_r in H.
Qed.

Lemma removeKey_present_length (l : list item) (k : K) (it : item) :
  In it l -> gcache.key it = k ->
  (List.length (removeKey l k) < List.length l)%nat.
Proof.
  unfold gcache.removeKey. intros Hin Hk.
  induction l as [|a l IH]; [destruct Hin|].
  simpl. destruct (keyIs k a) eqn:Ea; simpl.
  - pose proof (filter_length_le (fun it0 => negb (keyIs k it0)) l). lia.
  - destruct Hin as [->|Hin]; [apply keyIs_false in Ea; congruence|].
    specialize (IH Hin). lia.
Qed.

Lemma evict1_length (l : list item) :
  List.length (gcache.evict1 l) = pred (List.length l).
Proof.
  unfold gcache.evict1. rewrite removelast_firstn_len.
  apply firstn_length_le. lia.
Qed.

(** [Set] never lets the list grow past a positive capacity. *)
Lemma Set_capacity (c : gcache.LRUCache K V) (now : time.Time) (k : K) (v : V) :
  (0 < gcache.size c)%Z ->
  (Z.of_nat (List.length (gcache.evictList c)) <= gcache.size c)%Z ->
  (Z.of_nat (List.length (gcache.evictList (fst (gcache.Set_ K_eq_dec c now k v))))
     <= gcache.size c)%Z.
Proof.
  intros Hpos Hle. unfold gcache.Set_.
  destruct (lookup (gcache.evictList c) k) as [it|] eqn:E; simpl.
  - destruct (lookup_Some _ _ E) as [Hin Hk].
    pose proof (removeKey_present_length _ _ Hin Hk). lia.
  - destruct (Z.of_nat (List.length (gcache.evictList c)) >=? gcache.size c) eqn:G.
    + rewrite evict1_length. lia.
    + rewrite Z.geb_leb in G. apply Z.leb_gt in G. lia.
Qed.

Lemma NoDup_keys_filter (f : item -> bool) (l : list item) :
  NoDup (map (@gcache.key K V) l) -> NoDup (map (@gcache.key K V) (filter f l)).
Proof.
  induction l as [|a l IH]; simpl; intros H; [constructor|].
  inversion H as [|x xs Hnin Hnd]; subst.
  destruct (f a); simpl; [|now apply IH].
  constructor; [|now apply IH].
  intros Hin. apply Hnin. apply in_map_iff in Hin. destruct Hin as [it [Hk Hin]].
  apply filter_In in Hin. apply in_map_iff. exists it. tauto.
Qed.

Lemma Set_config (c : gcache.LRUCache K V) (now : time.Time) (k : K) (v : V) :
  gcache.size (fst (gcache.Set_ K_eq_dec c now k v)) = gcache.size c /\
  gcache.cfg_expiration (fst (gcache.Set_ K_eq_dec c now k v)) = gcache.cfg_expiration c.
Proof.
  unfold gcache.Set_. destruct (lookup (gcache.evictList c) k); simpl; auto.
Qed.

Lemma Get_config (c : gcache.LRUCache K V) (now : time.Time) (k : K) :
  gcache.size (fst (gcache.Get K_eq_dec c now k)) = gcache.size c /\
  gcache.cfg_expiration (fst (gcache.Get K_eq_dec c now k)) = gcache.cfg_expiration c.
Proof.
  unfold gcache.Get. destruct (lookup (gcache.evictList c) k) as [it|]; simpl; auto.
  destruct (negb (gcache.IsExpired it now)); simpl; auto.
Qed.

Lemma Get_length (c : gcache.LRUCache K V) (now : time.Time) (k : K) :
  (List.length (gcache.evictList (fst (gcache.Get K_eq_dec c now k)))
   <= List.length (gcache.evictList c))%nat.
Proof.
  unfold gcache.Get. destruct (lookup (gcache.evictList c) k) as [it|] eqn:E; simpl; [|lia].
  destruct (lookup_Some _ _ E) as [Hin Hk].
  pose proof (removeKey_present_length _ _ Hin Hk).
  destruct (negb (gcache.IsExpired it now)); simpl; lia.
Qed.

Lemma Get_wf (c : gcache.LRUCache K V) (now : time.Time) (k : K) :
  gcache.wf c -> gcache.wf (fst (gcache.Get K_eq_dec c now k)).
Proof.
  unfold gcache.wf, gcache.Get. intros H.
  destruct (lookup (gcache.evictList c) k) as [it|] eqn:E; simpl; [|assumption].
  destruct (lookup_Some _ _ E) as [Hin Hk].
  destruct (negb (gcache.IsExpired it now)); simpl.
  - constructor; [|now apply map_key_removeKey_NoDup].
    intros Hin'. apply in_map_iff in Hin'. destruct Hin' as [x [Hx Hxin]].
    apply In_removeKey in Hxin. destruct Hxin as [_ Hne]. congruence.
  - now apply map_key_removeKey_NoDup.
Qed.

(** On a full cache, [Set] of a key that is not there drops the item at the
    back of the list, the least recently used one. *)
Lemma Set_evicts_back (c : gcache.LRUCache K V) (now : time.Time) (k : K) (v : V) :
  lookup (gcache.evictList c) k = None ->
  (gcache.size c <= Z.of_nat (List.length (gcache.evictList c)))%Z ->
  exists e,
    gcache.evictList (fst (gcache.Set_ K_eq_dec c now k v)) =
    gcache.mkItem k v e :: removelast (gcache.evictList c).
Proof.
  intros Hl Hfull. unfold gcache.Set_. rewrite Hl.
  assert ((Z.of_nat (List.length (gcache.evictList c)) >=? gcache.size c) = true) as ->
    by (rewrite Z.geb_leb; apply Z.leb_le; exact Hfull).
  simpl. eexists. reflexivity.
Qed.

(** A live hit moves the item to the front of the list. *)
Lemma Get_moves_to_front (c : gcache.LRUCache K V) (now : time.Time) (k : K) (it : item) :
  lookup (gcache.evictList c) k = Some it ->
  gcache.IsExpired it now = false ->
  gcache.evictList (fst (gcache.Get K_eq_dec c now k)) = it :: removeKey (gcache.evictList c) k.
Proof.
  intros Hl He. unfold gcache.Get. rewrite Hl, He. reflexivity.
Qed.

End Facts.

End gcache_facts.

(** ** Facts about the objects-list cache *)

Module cache_facts.

Import cache.
Local Open Scope string_scope.

Local Abbreviation lookup := (gcache.lookup Key_eq_dec).
Local Abbreviation removeKey := (gcache.removeKey Key_eq_dec).

(** [strings.HasPrefix] decides the prefix relation. *)
Lemma HasPrefix_spec (s p : string) :
  strings.HasPrefix s p = true <-> strings.isPrefixOf p s.
Proof.
  unfold strings.HasPrefix, strings.isPrefixOf. revert s.
  induction p as [|a p IH]; intros s.
  - split; [intros _; exists s; reflexivity | intros _; destruct s; reflexivity].
  - destruct s as [|b s]; simpl.
    + split; [discriminate | intros [rest H]; discriminate].
    + destruct (ascii_dec a b) as [->|Hne].
      * rewrite IH. split; intros [rest H]; exists rest; simpl in *; congruence.
      * split; [discriminate | intros [rest H]; simpl in H; congruence].
Qed.

Lemma containsObject_spec (cidStr objectName : string) (k : ObjectsListKey) :
  containsObject cidStr objectName k = true <->
  cid k = cidStr /\ strings.isPrefixOf (prefix k) objectName.
Proof.
  unfold containsObject. rewrite andb_true_iff, String.eqb_eq, HasPrefix_spec.
  split; intros [H1 H2]; split; congruence.
Qed.

Lemma cleanStep_items (cidStr objectName : string) (l : ObjectsListCache) (k : Key) :
  items (cleanStep cidStr objectName l k) = stepItems cidStr objectName (items l) k.
Proof.
  unfold items, cleanStep, stepItems, hit. destruct k as [k|t r]; [|reflexivity].
  destruct (containsObject cidStr objectName k); [|reflexivity].
  simpl. apply gcache_facts.Remove_list.
Qed.

Lemma clean_loop_items (cidStr objectName : string) (ks : list Key) (l : ObjectsListCache) :
  items (fold_left (cleanStep cidStr objectName) ks l) =
  fold_left (stepItems cidStr objectName) ks (items l).
Proof.
  revert l. induction ks as [|a ks IH]; intros l; simpl; [reflexivity|].
  rewrite IH, cleanStep_items. reflexivity.
Qed.

(** What the loop leaves under a key. *)
Lemma loop_lookup (cidStr objectName : string) (ks : list Key)
    (l : list (gcache.lruItem Key Value)) (q : Key) :
  lookup (fold_left (stepItems cidStr objectName) ks l) q =
  if hit cidStr objectName q && inb q ks then None else lookup l q.
Proof.
  revert l. induction ks as [|a ks IH]; intros l; simpl.
  - rewrite andb_false_r. reflexivity.
  - rewrite IH. unfold inb at 2. unfold stepItems.
    destruct (in_dec Key_eq_dec q (a :: ks)) as [Hin|Hnin].
    + destruct (Key_eq_dec a q) as [->|Hne].
      * destruct (hit cidStr objectName q) eqn:Hq; simpl; [|reflexivity].
        rewrite gcache_facts.lookup_removeKey_same. now destruct (inb q ks).
      * assert (inb q ks = true) as ->.
        { unfold inb. destruct (in_dec Key_eq_dec q ks); [reflexivity|].
          destruct Hin; [congruence|contradiction]. }
        destruct (hit cidStr objectName q); simpl; [reflexivity|].
        destruct (hit cidStr objectName a); [|reflexivity].
        apply gcache_facts.lookup_removeKey_other. congruence.
    + assert (inb q ks = false) as ->.
      { unfold inb. destruct (in_dec Key_eq_dec q ks); [|reflexivity].
        exfalso. apply Hnin. now right. }
      rewrite !andb_false_r.
      destruct (hit cidStr objectName a) eqn:Ha; [|reflexivity].
      apply gcache_facts.lookup_removeKey_other.
      intros ->. apply Hnin. now left.
Qed.

(** Which items the loop keeps. *)
Lemma loop_In (cidStr objectName : string) (ks : list Key)
    (l : list (gcache.lruItem Key Value)) (it : gcache.lruItem Key Value) :
  In it (fold_left (stepItems cidStr objectName) ks l) <->
  In it l /\ ~ (hit cidStr objectName (gcache.key it) = true /\ In (gcache.key it) ks).
Proof.
  revert l. induction ks as [|a ks IH]; intros l; simpl.
  - tauto.
  - rewrite IH. unfold stepItems at 1.
    destruct (hit cidStr objectName a) eqn:Ha.
    + rewrite gcache_facts.In_removeKey. split.
      * intros [[Hin Hne] Hno]. split; [assumption|].
        intros [Hh [Heq|Hin']]; [congruence | tauto].
      * intros [Hin Hno]. split; [split; [assumption|]|].
        -- intros Heq. apply Hno. split; [congruence | now left].
        -- intros [Hh Hin']. apply Hno. tauto.
    + split.
      * intros [Hin Hno]. split; [assumption|].
        intros [Hh [Heq|Hin']]; [congruence | tauto].
      * intros [Hin Hno]. split; [assumption|]. intros [Hh Hin']. apply Hno. tauto.
Qed.

Lemma inb_cons (q a : Key) (ks : list Key) :
  inb q (a :: ks) = if Key_eq_dec a q then true else inb q ks.
Proof.
  unfold inb. destruct (Key_eq_dec a q) as [Heq|Hne].
  - destruct (in_dec Key_eq_dec q (a :: ks)) as [_|Hn]; [reflexivity|].
    exfalso. apply Hn. now left.
  - destruct (in_dec Key_eq_dec q (a :: ks)) as [[H|H]|H];
      destruct (in_dec Key_eq_dec q ks) as [H'|H']; try reflexivity; try contradiction.
    exfalso. apply H. now right.
Qed.

Lemma filter_twice {A : Type} (f g : A -> bool) (l : list A) :
  filter f (filter g l) = filter (fun x => g x && f x) l.
Proof.
  induction l as [|x l IH]; simpl; [reflexivity|].
  destruct (g x); simpl; [destruct (f x)|]; now rewrite IH.
Qed.

(** The loop is one pass of a filter: it drops the items whose key passes the
    test and is among the keys visited. *)
Lemma loop_as_filter (cidStr objectName : string) (ks : list Key)
    (l : list (gcache.lruItem Key Value)) :
  fold_left (stepItems cidStr objectName) ks l =
  filter (fun it => negb (hit cidStr objectName (gcache.key it) && inb (gcache.key it) ks)) l.
Proof.
  revert l. induction ks as [|a ks IH]; intros l; simpl.
  - induction l as [|x l IHl]; simpl; [reflexivity|].
    rewrite andb_false_r. simpl. now f_equal.
  - rewrite IH. unfold stepItems, gcache.removeKey.
    destruct (hit cidStr objectName a) eqn:Ha.
    + rewrite filter_twice. apply filter_ext. intros x.
      rewrite inb_cons. unfold gcache.keyIs.
      destruct (Key_eq_dec a (gcache.key x)) as [Heq|Hne]; simpl; [|reflexivity].
      rewrite <- Heq, Ha. reflexivity.
    + apply filter_ext. intros x. rewrite inb_cons.
      destruct (Key_eq_dec a (gcache.key x)) as [Heq|Hne]; [|reflexivity].
      rewrite <- Heq, Ha. reflexivity.
Qed.

(** The loop's result does not depend on the order in which the map's keys
    are visited, nor on repeated visits. *)
Lemma loop_order_irrelevant (cidStr objectName : string) (ks ks' : list Key)
    (l : list (gcache.lruItem Key Value)) :
  (forall k, In k ks <-> In k ks') ->
  fold_left (stepItems cidStr objectName) ks l =
  fold_left (stepItems cidStr objectName) ks' l.
Proof.
  intros Hsame. rewrite !loop_as_filter. apply filter_ext. intros x. do 2 f_equal.
  unfold inb. destruct (in_dec Key_eq_dec (gcache.key x) ks) as [H|H];
    destruct (in_dec Key_eq_dec (gcache.key x) ks') as [H'|H']; try reflexivity.
  - apply Hsame in H. contradiction.
  - apply Hsame in H'. contradiction.
Qed.

(** Whatever the order in which the map hands out its keys, the clean-up
    leaves the same items. *)
Lemma clean_order_irrelevant {CID : Type} {E : cid.Encoding CID}
    (l : ObjectsListCache) (now : time.Time) (objectName : string) (cnr : CID)
    (ks : list Key) :
  (forall k, In k ks <-> In k (gcache.Keys Key_eq_dec true (cache l) now)) ->
  items (fold_left (cleanStep (cid.EncodeToString cnr) objectName) ks l) =
  items (CleanCacheEntriesContainingObject l now objectName cnr).
Proof.
  intros Hsame. unfold CleanCacheEntriesContainingObject.
  rewrite !clean_loop_items. now apply loop_order_irrelevant.
Qed.

(** The result of [Get], read off the items. *)
Lemma Get_answer (l : ObjectsListCache) (now : time.Time) (key : ObjectsListKey) :
  snd (Get l now key) =
  match lookup (items l) (KObjectsList key) with
  | Some it =>
      if gcache.IsExpired it now then None
      else match gcache.value it with VIDs ids => Some ids | VForeign _ => None end
  | None => None
  end.
Proof.
  unfold Get, gcache.Get, items.
  destruct (lookup (gcache.evictList (cache l)) (KObjectsList key)) as [it|]; [|reflexivity].
  destruct (gcache.IsExpired it now); simpl; [reflexivity|].
  destruct (gcache.value it); reflexivity.
Qed.

(** After the clean-up, a key that names the container and a prefix of the
    written name is a miss from then on. *)
Lemma clean_then_miss {CID : Type} {E : cid.Encoding CID}
    (l : ObjectsListCache) (now now' : time.Time) (objectName : string) (cnr : CID)
    (key : ObjectsListKey) :
  containsObject (cid.EncodeToString cnr) objectName key = true ->
  (now <= now')%Z ->
  snd (Get (CleanCacheEntriesContainingObject l now objectName cnr) now' key) = None.
Proof.
  intros Hhit Hle. rewrite Get_answer. unfold CleanCacheEntriesContainingObject.
  rewrite clean_loop_items, loop_lookup. simpl hit. rewrite Hhit. simpl.
  destruct (inb (KObjectsList key) (gcache.Keys Key_eq_dec true (cache l) now)) eqn:Hin;
    [reflexivity|].
  destruct (lookup (items l) (KObjectsList key)) as [it|] eqn:Hl; [|reflexivity].
  destruct (gcache.IsExpired it now) eqn:He.
  - now rewrite (gcache_facts.IsExpired_mono it Hle He).
  - exfalso. pose proof (gcache_facts.Keys_live Key_eq_dec (cache l) now _ Hl He) as Hk.
    unfold inb in Hin.
    destruct (in_dec Key_eq_dec (KObjectsList key) (gcache.Keys Key_eq_dec true (cache l) now));
      [discriminate | contradiction].
Qed.

End cache_facts.

(** ** Invalidation on write *)

Module Invalidation.

Import cache.
Local Open Scope string_scope.

(** The scenario, before and after the write of "a/b/d.txt" at instant 3:
    the listing of "a/" is served from the cache, then it is a miss. *)
Example scenario_before :
  snd (Get scenario.listed 3 scenario.key_a) = Some [scenario.id1].
Proof. reflexivity. Qed.

Example scenario_after :
  snd (Get (CleanCacheEntriesContainingObject (E := cid.text_id)
              scenario.listed 3 "a/b/d.txt" scenario.C1) 3 scenario.key_a) = None.
Proof. reflexivity. Qed.

(** C1 (invalidation completeness).  For every container, every written
    object name and every cache key whose container string is the
    container's text form and whose prefix is a string-prefix of the written
    name: once CleanCacheEntriesContainingObject has run for that container
    and name, Get on the key is a miss, at the instant of the clean-up and at
    every later one, whatever the key's latestOnly flag. *)
Theorem invalidation_completeness {CID : Type} {E : cid.Encoding CID}
    (l : ObjectsListCache) (now now' : time.Time) (cnr : CID)
    (objectName : string) (key : ObjectsListKey) :
  cid key = cid.EncodeToString cnr ->
  strings.isPrefixOf (prefix key) objectName ->
  (now <= now')%Z ->
  snd (Get (CleanCacheEntriesContainingObject l now objectName cnr) now' key) = None.
Proof.
  intros Hc Hp Hle. apply cache_facts.clean_then_miss; [|exact Hle].
  apply cache_facts.containsObject_spec. split; [exact Hc | exact Hp].
Qed.

Lemma invalidation_completeness_witness :
  cid scenario.key_a = scenario.C1 /\
  strings.isPrefixOf (prefix scenario.key_a) "a/b/d.txt" /\
  (3 <= 4)%Z /\
  snd (Get (CleanCacheEntriesContainingObject (E := cid.text_id)
              scenario.listed 3 "a/b/d.txt" scenario.C1) 4 scenario.key_a) = None.
Proof.
  assert (Hp : strings.isPrefixOf (prefix scenario.key_a) "a/b/d.txt")
    by (exists "b/d.txt"; reflexivity).
  assert (Hle : (3 <= 4)%Z) by lia.
  split; [reflexivity | split; [exact Hp | split; [exact Hle|]]].
  exact (@invalidation_completeness string cid.text_id scenario.listed 3 4 scenario.C1
           "a/b/d.txt" scenario.key_a eq_refl Hp Hle).
Defined.

(** C9 (invalidation frame).  CleanCacheEntriesContainingObject removes
    matching entries only: an item whose key names another container, or a
    prefix that is not a string-prefix of the written name, or is not an
    ObjectsListKey at all, is still in the cache, the very same item; nothing
    is added; and Get on such a key answers after the clean-up what it
    answered before. *)
Theorem invalidation_frame {CID : Type} {E : cid.Encoding CID}
    (l : ObjectsListCache) (now : time.Time) (cnr : CID) (objectName : string) :
  (forall it,
      In it (items l) ->
      (forall k, gcache.key it = KObjectsList k ->
                 cid k <> cid.EncodeToString cnr \/
                 ~ strings.isPrefixOf (prefix k) objectName) ->
      In it (items (CleanCacheEntriesContainingObject l now objectName cnr)))
  /\
  (forall it,
      In it (items (CleanCacheEntriesContainingObject l now objectName cnr)) ->
      In it (items l))
  /\
  (forall key now',
      cid key <> cid.EncodeToString cnr \/ ~ strings.isPrefixOf (prefix key) objectName ->
      snd (Get (CleanCacheEntriesContainingObject l now objectName cnr) now' key)
      = snd (Get l now' key)).
Proof.
  assert (Hmiss : forall k,
             cid k <> cid.EncodeToString cnr \/ ~ strings.isPrefixOf (prefix k) objectName ->
             containsObject (cid.EncodeToString cnr) objectName k = false).
  { intros k Hk. destruct (containsObject (cid.EncodeToString cnr) objectName k) eqn:Ec;
      [|reflexivity].
    apply cache_facts.containsObject_spec in Ec. destruct Ec as [Hc Hp].
    destruct Hk as [Hk|Hk]; contradiction. }
  unfold CleanCacheEntriesContainingObject.
  split; [|split].
  - intros it Hin Hk. rewrite cache_facts.clean_loop_items.
    apply cache_facts.loop_In. split; [exact Hin|].
    intros [Hhit _]. unfold hit in Hhit.
    destruct (gcache.key it) as [k|t r] eqn:Ek; [|discriminate].
    rewrite (Hmiss k (Hk k eq_refl)) in Hhit. discriminate.
  - intros it Hin. rewrite cache_facts.clean_loop_items in Hin.
    apply cache_facts.loop_In in Hin. tauto.
  - intros key now' Hk. rewrite !cache_facts.Get_answer.
    rewrite cache_facts.clean_loop_items, cache_facts.loop_lookup.
    simpl hit. rewrite (Hmiss key Hk). reflexivity.
Qed.

Lemma invalidation_frame_witness :
  ~ strings.isPrefixOf (prefix scenario.key_z) "a/b/d.txt" /\
  snd (Get (CleanCacheEntriesContainingObject (E := cid.text_id)
              scenario.listed 3 "a/b/d.txt" scenario.C1) 3 scenario.key_z)
  = Some [scenario.id2].
Proof.
  assert (Hn : ~ strings.isPrefixOf (prefix scenario.key_z) "a/b/d.txt")
    by (intros [rest H]; discriminate H).
  split; [exact Hn|].
  exact (eq_trans
           (proj2 (proj2 (@invalidation_frame string cid.text_id scenario.listed 3
                            scenario.C1 "a/b/d.txt")) scenario.key_z 3 (or_intror Hn))
           eq_refl).
Defined.

(** C10 (empty prefix).  The empty string is a string-prefix of every object
    name, so a key of container C with the empty prefix (a listing of the
    whole container) is a miss after the write of any object name in C. *)
Theorem empty_prefix_invalidated_by_any_write {CID : Type} {E : cid.Encoding CID}
    (l : ObjectsListCache) (now now' : time.Time) (cnr : CID)
    (objectName : string) (key : ObjectsListKey) :
  cid key = cid.EncodeToString cnr ->
  prefix key = "" ->
  (now <= now')%Z ->
  strings.isPrefixOf "" objectName /\
  snd (Get (CleanCacheEntriesContainingObject l now objectName cnr) now' key) = None.
Proof.
  intros Hc Hp Hle.
  assert (Hpre : strings.isPrefixOf "" objectName) by (exists objectName; reflexivity).
  split; [exact Hpre|].
  apply cache_facts.clean_then_miss; [|exact Hle].
  apply cache_facts.containsObject_spec. rewrite Hp. split; [exact Hc | exact Hpre].
Qed.

Lemma empty_prefix_invalidated_by_any_write_witness :
  cid scenario.key_root = scenario.C1 /\
  prefix scenario.key_root = "" /\
  snd (Get scenario.listed 3 scenario.key_root) = Some [scenario.id1; scenario.id2] /\
  snd (Get (CleanCacheEntriesContainingObject (E := cid.text_id)
              scenario.listed 3 "unrelated.bin" scenario.C1) 3 scenario.key_root) = None.
Proof.
  split; [reflexivity | split; [reflexivity | split; [reflexivity|]]].
  exact (proj2 (@empty_prefix_invalidated_by_any_write string cid.text_id scenario.listed
                  3 3 scenario.C1 "unrelated.bin" scenario.key_root
                  eq_refl eq_refl (Z.le_refl 3))).
Defined.

End Invalidation.

(** ** Get and Put *)

Module GetPut.

Import cache.
Local Open Scope string_scope.

Local Abbreviation lookup := (gcache.lookup Key_eq_dec).

Lemma Put_empty (l : ObjectsListCache) (now : time.Time) (key : ObjectsListKey) :
  Put l now key [] =
  (l, Err (Errorf ("list is empty, cid: " ++ cid key ++ ", prefix: " ++ prefix key))).
Proof. reflexivity. Qed.

Lemma Put_nonempty (l : ObjectsListCache) (now : time.Time) (key : ObjectsListKey)
    (oids : list oid.ID) :
  oids <> [] ->
  Put l now key oids =
  (mkObjectsListCache
     (fst (gcache.Set_ Key_eq_dec (cache l) now (KObjectsList key) (VIDs oids)))
     (logger l),
   Ok tt).
Proof.
  intros Hne. unfold Put. destruct oids as [|o oids]; [contradiction|]. simpl.
  unfold gcache.Set_.
  destruct (gcache.lookup Key_eq_dec (gcache.evictList (cache l)) (KObjectsList key));
    reflexivity.
Qed.

(** What [Set] leaves under the key it wrote. *)
Lemma Set_lookup (c : GCache) (now : time.Time) (k : Key) (v : Value) :
  lookup (gcache.evictList (fst (gcache.Set_ Key_eq_dec c now k v))) k =
  Some (gcache.mkItem k v
          (match gcache.cfg_expiration c with
           | Some d => Some (time.Add now d)
           | None => match lookup (gcache.evictList c) k with
                     | Some it => gcache.expiration it
                     | None => None
                     end
           end)).
Proof.
  unfold gcache.Set_.
  destruct (lookup (gcache.evictList c) k) as [it|] eqn:El; simpl;
    unfold gcache.lookup; simpl; unfold gcache.keyIs; simpl;
    destruct (Key_eq_dec k k); try contradiction; reflexivity.
Qed.

(** C2 (empty listings are not cached).  Put with an empty id list returns
    the "list is empty" error and leaves the cache exactly as it was: Get
    answers afterwards what it answered before, and a key with no entry
    still has none.  The listing flow that called Put goes on with its (empty)
    result and the cache untouched: the error stops there. *)
Theorem Put_empty_is_not_cached (l : ObjectsListCache) (now : time.Time)
    (key : ObjectsListKey) :
  snd (Put l now key []) =
    Err (Errorf ("list is empty, cid: " ++ cid key ++ ", prefix: " ++ prefix key))
  /\ fst (Put l now key []) = l
  /\ (forall now' k, Get (fst (Put l now key [])) now' k = Get l now' k)
  /\ (forall now', lookup (items l) (KObjectsList key) = None ->
                   snd (Get (fst (Put l now key [])) now' key) = None)
  /\ cacheListing l now key [] = (l, []).
Proof.
  rewrite Put_empty. simpl.
  split; [reflexivity | split; [reflexivity | split; [reflexivity | split]]].
  - intros now' Hnone. rewrite cache_facts.Get_answer, Hnone. reflexivity.
  - unfold cacheListing. rewrite Put_empty. reflexivity.
Qed.

Lemma Put_empty_is_not_cached_witness :
  lookup (items scenario.fresh) (KObjectsList scenario.key_a) = None /\
  snd (Get (fst (Put scenario.fresh 0 scenario.key_a [])) 0 scenario.key_a) = None.
Proof.
  split; [reflexivity|].
  exact (proj1 (proj2 (proj2 (proj2
           (Put_empty_is_not_cached scenario.fresh 0 scenario.key_a)))) 0%Z eq_refl).
Defined.

(** On a cache whose logger is there, the two models of Get agree. *)
Lemma Get_logged (l : ObjectsListCache) (now : time.Time) (key : ObjectsListKey) :
  cache_ptr.Get (cache_ptr.logged l) now key =
  cache_ptr.Returns (cache_ptr.logged (fst (Get l now key))) (snd (Get l now key)).
Proof.
  unfold cache_ptr.Get, Get, cache_ptr.logged. cbn [cache_ptr.cache cache_ptr.logger].
  destruct (gcache.Get Key_eq_dec (cache l) now (KObjectsList key)) as [gc [v|e]];
    [destruct v|]; reflexivity.
Qed.

(** Get can panic: "never raises in any case" fails on a cache made with no
    logger in its configuration, once an entry of another type is under the
    key. *)
Lemma Get_panics_without_logger :
  (exists l0,
      cache_ptr.NewObjectsListCache cache_ptr.nil_config = Some l0 /\
      cache_ptr.Get (cache_ptr.stored_string l0) 5 scenario.key_a = cache_ptr.Panics)
  /\
  ~ (forall (l : cache_ptr.ObjectsListCache) (now : time.Time) (key : ObjectsListKey),
        cache_ptr.Get l now key <> cache_ptr.Panics).
Proof.
  assert (Hp : cache_ptr.Get
                 (cache_ptr.stored_string
                    (cache_ptr.mkObjectsListCache
                       (gcache.mkCache DefaultObjectsListCacheSize
                          (Some DefaultObjectsListCacheLifetime) []) None))
                 5 scenario.key_a = cache_ptr.Panics) by reflexivity.
  split.
  - eexists. split; [reflexivity | exact Hp].
  - intros H. exact (H _ _ _ Hp).
Qed.

(** C3 (Get), as the code has it.  Get answers with an id list only when the
    cache holds, under the key, an item of that very list that is not expired
    at the instant of the call.  No error leaves Get: a miss of the
    underlying cache is turned into nil, with the log untouched and without
    a panic, logger or no logger.  When the item under the key is live and of
    another type, Get writes one warning and answers nil if the cache has a
    logger; if the logger is the nil pointer, writing the warning panics.
    That is the only panic: Get panics exactly when the logger is nil and the
    key holds a live item of another type. *)
Theorem Get_misses_quietly_and_panics_only_without_logger
    (l : cache_ptr.ObjectsListCache) (now : time.Time) (key : ObjectsListKey) :
  (forall l' ids,
      cache_ptr.Get l now key = cache_ptr.Returns l' (Some ids) ->
      exists it,
        In it (gcache.evictList (cache_ptr.cache l)) /\
        gcache.key it = KObjectsList key /\
        gcache.value it = VIDs ids /\
        gcache.IsExpired it now = false /\
        (forall e, gcache.expiration it = Some e -> (now <= e)%Z))
  /\
  (forall it t w,
      lookup (gcache.evictList (cache_ptr.cache l)) (KObjectsList key) = Some it ->
      gcache.value it = VForeign t ->
      gcache.IsExpired it now = false ->
      cache_ptr.logger l = Some w ->
      cache_ptr.Get l now key =
      cache_ptr.Returns
        (cache_ptr.mkObjectsListCache
           (fst (gcache.Get Key_eq_dec (cache_ptr.cache l) now (KObjectsList key)))
           (Some (w ++ [mkLogEntry WarnLevel "invalid cache entry type"
                          [("actual", t); ("expected", "[]oid.ID")]])%list))
        None)
  /\
  (forall e,
      snd (gcache.Get Key_eq_dec (cache_ptr.cache l) now (KObjectsList key)) = Err e ->
      cache_ptr.Get l now key =
      cache_ptr.Returns
        (cache_ptr.mkObjectsListCache
           (fst (gcache.Get Key_eq_dec (cache_ptr.cache l) now (KObjectsList key)))
           (cache_ptr.logger l))
        None)
  /\
  (cache_ptr.Get l now key = cache_ptr.Panics <->
   cache_ptr.logger l = None /\
   exists it t,
     lookup (gcache.evictList (cache_ptr.cache l)) (KObjectsList key) = Some it /\
     gcache.IsExpired it now = false /\
     gcache.value it = VForeign t)
  /\
  (cache_ptr.logger l <> None -> cache_ptr.Get l now key <> cache_ptr.Panics).
Proof.
  assert (Hpanic : cache_ptr.Get l now key = cache_ptr.Panics <->
                   cache_ptr.logger l = None /\
                   exists it t,
                     lookup (gcache.evictList (cache_ptr.cache l)) (KObjectsList key) = Some it /\
                     gcache.IsExpired it now = false /\
                     gcache.value it = VForeign t).
  { unfold cache_ptr.Get, gcache.Get.
    destruct (lookup (gcache.evictList (cache_ptr.cache l)) (KObjectsList key)) as [it|] eqn:El.
    - destruct (gcache.IsExpired it now) eqn:He; cbn [negb].
      + split; [discriminate|]. intros [_ [it' [t [Hit [He' _]]]]].
        injection Hit as <-. congruence.
      + destruct (gcache.value it) as [ids|t] eqn:Ev.
        * split; [discriminate|]. intros [_ [it' [t [Hit [_ Hv]]]]].
          injection Hit as <-. congruence.
        * unfold zap.Warn. destruct (cache_ptr.logger l) as [w|].
          -- split; [discriminate | intros [Hn _]; discriminate].
          -- split; [|reflexivity]. intros _. split; [reflexivity|].
             exists it, t. repeat split; assumption.
    - split; [discriminate|]. intros [_ [it [t [Hit _]]]]. discriminate. }
  split; [|split; [|split; [|split]]].
  - intros l' ids H. unfold cache_ptr.Get, gcache.Get in H.
    destruct (lookup (gcache.evictList (cache_ptr.cache l)) (KObjectsList key)) as [it|] eqn:El;
      [|discriminate].
    destruct (gcache_facts.lookup_Some _ _ _ El) as [Hin Hk].
    destruct (gcache.IsExpired it now) eqn:He; cbn [negb] in H; [discriminate|].
    destruct (gcache.value it) as [ids'|t] eqn:Ev.
    + injection H as _ <-. exists it. repeat split; try assumption.
      intros e Hexp. unfold gcache.IsExpired, time.Before in He. rewrite Hexp in He.
      apply Z.ltb_ge in He. exact He.
    + unfold zap.Warn in H. destruct (cache_ptr.logger l); discriminate.
  - intros it t w El Ev He Hw. unfold cache_ptr.Get, gcache.Get.
    rewrite El, He. cbn [negb]. rewrite Ev, Hw. reflexivity.
  - intros e H. unfold cache_ptr.Get.
    destruct (gcache.Get Key_eq_dec (cache_ptr.cache l) now (KObjectsList key)) as [gc [v|e']];
      [discriminate | reflexivity].
  - exact Hpanic.
  - intros Hlog Hp. apply Hpanic in Hp. destruct Hp as [Hnil _]. contradiction.
Qed.

Lemma Get_misses_quietly_and_panics_only_without_logger_witness :
  (exists l,
      cache_ptr.corrupted_logged = Some l /\
      cache_ptr.logger l <> None /\
      cache_ptr.Get l 5 scenario.key_a <> cache_ptr.Panics /\
      cache_ptr.Get l 5 scenario.key_a =
      cache_ptr.Returns
        (cache_ptr.mkObjectsListCache (cache_ptr.cache l)
           (Some [mkLogEntry WarnLevel "invalid cache entry type"
                    [("actual", "string"); ("expected", "[]oid.ID")]]))
        None)
  /\
  (exists l,
      cache_ptr.corrupted_nil = Some l /\
      cache_ptr.logger l = None /\
      cache_ptr.Get l 5 scenario.key_a = cache_ptr.Panics /\
      cache_ptr.Get l 60000000001 scenario.key_a =
      cache_ptr.Returns
        (cache_ptr.mkObjectsListCache
           (gcache.mkCache DefaultObjectsListCacheSize
              (Some DefaultObjectsListCacheLifetime) []) None)
        None).
Proof.
  split.
  - eexists. split; [reflexivity|].
    assert (Hlog : cache_ptr.logger
                     (cache_ptr.stored_string
                        (cache_ptr.mkObjectsListCache
                           (gcache.mkCache DefaultObjectsListCacheSize
                              (Some DefaultObjectsListCacheLifetime) []) (Some [])))
                   <> None) by discriminate.
    split; [exact Hlog | split; [|reflexivity]].
    exact (proj2 (proj2 (proj2 (proj2
             (Get_misses_quietly_and_panics_only_without_logger
                (cache_ptr.stored_string
                   (cache_ptr.mkObjectsListCache
                      (gcache.mkCache DefaultObjectsListCacheSize
                         (Some DefaultObjectsListCacheLifetime) []) (Some [])))
                5 scenario.key_a)))) Hlog).
  - eexists. split; [reflexivity|]. split; [reflexivity|]. split.
    + apply (proj1 (proj2 (proj2 (proj2
               (Get_misses_quietly_and_panics_only_without_logger
                  (cache_ptr.stored_string
                     (cache_ptr.mkObjectsListCache
                        (gcache.mkCache DefaultObjectsListCacheSize
                           (Some DefaultObjectsListCacheLifetime) []) None))
                  5 scenario.key_a))))).
      split; [reflexivity|]. eexists. exists "string". repeat split.
    + reflexivity.
Defined.

(** C4 (read-your-write).  A Put of a non-empty id list succeeds, and a Get
    of the same key that follows it, no later than the entry's lifetime
    after the Put, answers exactly that list. *)
Theorem Put_then_Get (l : ObjectsListCache) (now now' : time.Time)
    (key : ObjectsListKey) (oids : list oid.ID) (d : time.Duration) :
  oids <> [] ->
  gcache.cfg_expiration (cache l) = Some d ->
  (now' <= time.Add now d)%Z ->
  snd (Put l now key oids) = Ok tt /\
  snd (Get (fst (Put l now key oids)) now' key) = Some oids.
Proof.
  intros Hne Hd Hle. rewrite (Put_nonempty l now key Hne). simpl.
  split; [reflexivity|].
  rewrite cache_facts.Get_answer. unfold items. simpl.
  rewrite Set_lookup, Hd. unfold gcache.IsExpired, time.Before. simpl.
  apply Z.ltb_ge in Hle. rewrite Hle. reflexivity.
Qed.

Lemma Put_then_Get_witness :
  [scenario.id1; scenario.id2] <> [] /\
  gcache.cfg_expiration (cache scenario.listed) = Some DefaultObjectsListCacheLifetime /\
  (10 <= time.Add 7 DefaultObjectsListCacheLifetime)%Z /\
  snd (Get (fst (Put scenario.listed 7 scenario.key_a [scenario.id1; scenario.id2]))
         10 scenario.key_a) = Some [scenario.id1; scenario.id2].
Proof.
  assert (Hne : [scenario.id1; scenario.id2] <> []) by discriminate.
  assert (Hle : (10 <= time.Add 7 DefaultObjectsListCacheLifetime)%Z)
    by (vm_compute; discriminate).
  split; [exact Hne | split; [reflexivity | split; [exact Hle|]]].
  exact (proj2 (@Put_then_Get scenario.listed 7 10 scenario.key_a
                  [scenario.id1; scenario.id2] DefaultObjectsListCacheLifetime
                  Hne eq_refl Hle)).
Defined.

End GetPut.

(** ** Keys and configuration *)

Module KeysConfig.

Import cache.
Local Open Scope string_scope.

(** C5 (key equality).  Two keys made by CreateObjectsListCacheKey are equal
    exactly when the text forms of the container ids, the prefixes and the
    flags are equal; the prefix is stored as given, so prefixes that differ
    only in the case of a letter make different keys; and the equality the
    cache's map decides on its keys is this one. *)
Theorem key_equality_structural {CID : Type} {E : cid.Encoding CID}
    (c1 c2 : CID) (p1 p2 : string) (f1 f2 : bool) :
  (CreateObjectsListCacheKey c1 p1 f1 = CreateObjectsListCacheKey c2 p2 f2 <->
   cid.EncodeToString c1 = cid.EncodeToString c2 /\ p1 = p2 /\ f1 = f2)
  /\
  prefix (CreateObjectsListCacheKey c1 p1 f1) = p1
  /\
  CreateObjectsListCacheKey c1 "Photos/" f1 <> CreateObjectsListCacheKey c1 "photos/" f1
  /\
  (forall it : gcache.lruItem Key Value,
      gcache.key it = KObjectsList (CreateObjectsListCacheKey c2 p2 f2) ->
      (gcache.keyIs Key_eq_dec (KObjectsList (CreateObjectsListCacheKey c1 p1 f1)) it = true <->
       cid.EncodeToString c1 = cid.EncodeToString c2 /\ p1 = p2 /\ f1 = f2)).
Proof.
  assert (Hiff : CreateObjectsListCacheKey c1 p1 f1 = CreateObjectsListCacheKey c2 p2 f2 <->
                 cid.EncodeToString c1 = cid.EncodeToString c2 /\ p1 = p2 /\ f1 = f2).
  { unfold CreateObjectsListCacheKey. split.
    - intros H. injection H as H1 H2 H3. auto.
    - intros [H1 [H2 H3]]. congruence. }
  split; [exact Hiff | split; [reflexivity | split]].
  - unfold CreateObjectsListCacheKey. intros H. discriminate H.
  - intros it Hit. rewrite gcache_facts.keyIs_true, Hit, <- Hiff.
    split; intros H.
    + injection H. intros Hf Hp Hc. unfold CreateObjectsListCacheKey. congruence.
    + now rewrite H.
Qed.

Lemma key_equality_structural_witness :
  CreateObjectsListCacheKey (E := cid.text_id) "C1" "a/" false
  = CreateObjectsListCacheKey (E := cid.text_id) "C1" "a/" false
  /\ CreateObjectsListCacheKey (E := cid.text_id) "C1" "a/" false
     <> CreateObjectsListCacheKey (E := cid.text_id) "C1" "a/" true.
Proof.
  split.
  - exact (proj2 (proj1 (@key_equality_structural string cid.text_id "C1" "C1" "a/" "a/"
                           false false))
             (conj eq_refl (conj eq_refl eq_refl))).
  - intros H.
    pose proof (proj1 (proj1 (@key_equality_structural string cid.text_id "C1" "C1" "a/" "a/"
                                false true)) H) as [_ [_ Hf]].
    discriminate Hf.
Defined.

Lemma get_cache (l : ObjectsListCache) (now : time.Time) (key : ObjectsListKey) :
  cache (fst (Get l now key)) = fst (gcache.Get Key_eq_dec (cache l) now (KObjectsList key)).
Proof.
  unfold Get. destruct (gcache.Get Key_eq_dec (cache l) now (KObjectsList key)) as [gc [v|e]];
    [destruct v|]; reflexivity.
Qed.

Lemma put_cache (l : ObjectsListCache) (now : time.Time) (key : ObjectsListKey)
    (oids : list oid.ID) :
  cache (fst (Put l now key oids)) = cache l \/
  cache (fst (Put l now key oids)) =
    fst (gcache.Set_ Key_eq_dec (cache l) now (KObjectsList key) (VIDs oids)).
Proof.
  destruct oids as [|o oids]; [left; reflexivity|].
  right. rewrite GetPut.Put_nonempty by discriminate. reflexivity.
Qed.

Lemma clean_loop_config (cidStr objectName : string) (ks : list Key) (l : ObjectsListCache) :
  gcache.size (cache (fold_left (cleanStep cidStr objectName) ks l)) = gcache.size (cache l) /\
  gcache.cfg_expiration (cache (fold_left (cleanStep cidStr objectName) ks l))
  = gcache.cfg_expiration (cache l).
Proof.
  revert l. induction ks as [|a ks IH]; intros l; simpl; [auto|].
  destruct (IH (cleanStep cidStr objectName l a)) as [H1 H2]. rewrite H1, H2.
  unfold cleanStep. destruct a as [k|t r]; simpl; [|auto].
  destruct (containsObject cidStr objectName k); simpl; [|auto].
  apply gcache_facts.Remove_config.
Qed.

(** Every call keeps the cache within its configuration. *)
Lemma call_bounded {CID : Type} {E : cid.Encoding CID} (config : Config)
    (l : ObjectsListCache) (c : Call CID) :
  (0 < Size config)%Z -> bounded config l -> bounded config (call l c).
Proof.
  intros Hpos [Hs [Hd [Hlen Hwf]]]. unfold bounded, items in *.
  destruct c as [now key|now key oids|now objectName cnr]; simpl.
  - rewrite get_cache.
    destruct (gcache_facts.Get_config Key_eq_dec (cache l) now (KObjectsList key)) as [H1 H2].
    pose proof (gcache_facts.Get_length Key_eq_dec (cache l) now (KObjectsList key)).
    rewrite H1, H2. repeat split; try assumption; [lia|].
    now apply gcache_facts.Get_wf.
  - destruct (put_cache l now key oids) as [->| ->]; [tauto|].
    destruct (gcache_facts.Set_config Key_eq_dec (cache l) now (KObjectsList key) (VIDs oids))
      as [H1 H2].
    rewrite H1, H2. repeat split; try assumption.
    + rewrite <- Hs. apply gcache_facts.Set_capacity; lia.
    + now apply gcache_facts.Set_wf.
  - unfold CleanCacheEntriesContainingObject.
    destruct (clean_loop_config (cid.EncodeToString cnr) objectName
                (gcache.Keys Key_eq_dec true (cache l) now) l) as [H1 H2].
    rewrite H1, H2. repeat split; try assumption.
    + pose proof (cache_facts.clean_loop_items (cid.EncodeToString cnr) objectName
                    (gcache.Keys Key_eq_dec true (cache l) now) l) as Hi.
      unfold items in Hi. rewrite Hi, cache_facts.loop_as_filter.
      match goal with |- context [filter ?f ?x] => pose proof (filter_length_le f x) end.
      lia.
    + unfold gcache.wf.
      pose proof (cache_facts.clean_loop_items (cid.EncodeToString cnr) objectName
                    (gcache.Keys Key_eq_dec true (cache l) now) l) as Hi.
      unfold items in Hi. rewrite Hi, cache_facts.loop_as_filter.
      now apply gcache_facts.NoDup_keys_filter.
Qed.

Lemma calls_bounded {CID : Type} {E : cid.Encoding CID} (config : Config)
    (cs : list (Call CID)) (l : ObjectsListCache) :
  (0 < Size config)%Z -> bounded config l -> bounded config (calls l cs).
Proof.
  intros Hpos. revert l. unfold calls.
  induction cs as [|c cs IH]; intros l Hb; simpl; [exact Hb|].
  apply IH. now apply call_bounded.
Qed.

(** An entry is a miss once its lifetime has passed. *)
Lemma Put_expires (l : ObjectsListCache) (now now' : time.Time) (key : ObjectsListKey)
    (oids : list oid.ID) (d : time.Duration) :
  oids <> [] ->
  gcache.cfg_expiration (cache l) = Some d ->
  (time.Add now d < now')%Z ->
  snd (Get (fst (Put l now key oids)) now' key) = None.
Proof.
  intros Hne Hd Hlt. rewrite (GetPut.Put_nonempty l now key Hne). simpl.
  rewrite cache_facts.Get_answer. unfold items. simpl.
  rewrite GetPut.Set_lookup, Hd. unfold gcache.IsExpired, time.Before. simpl.
  apply Z.ltb_lt in Hlt. rewrite Hlt. reflexivity.
Qed.

(** C6 (configuration and defaults).  The default configuration asks for
    10^5 entries and 60 seconds.  The constructor takes both bounds from the
    configuration it is given: with a positive size it builds an empty LRU
    cache whose capacity and lifetime are the configured ones, and they stay
    so through every sequence of calls: the cache never holds more items
    than the configured size, and an entry is a miss once the configured
    lifetime has passed since it was put. *)
Theorem cache_built_from_config {CID : Type} {E : cid.Encoding CID} (config : Config) :
  (forall lg,
      Size (DefaultObjectsListConfig lg) = (10 ^ 5)%Z /\
      Lifetime (DefaultObjectsListConfig lg) = (60 * time.Second)%Z /\
      Logger_ (DefaultObjectsListConfig lg) = lg)
  /\
  ((0 < Size config)%Z ->
   exists l0,
     NewObjectsListCache config = Some l0 /\
     items l0 = [] /\
     logger l0 = Logger_ config /\
     forall cs : list (Call CID),
       bounded config (calls l0 cs) /\
       forall now now' key oids,
         oids <> [] ->
         (time.Add now (Lifetime config) < now')%Z ->
         snd (Get (fst (Put (calls l0 cs) now key oids)) now' key) = None).
Proof.
  split.
  - intros lg. repeat split.
  - intros Hpos. unfold NewObjectsListCache, gcache.Build.
    assert ((Size config <=? 0)%Z = false) as -> by (apply Z.leb_gt; exact Hpos).
    eexists. split; [reflexivity|]. split; [reflexivity|]. split; [reflexivity|].
    intros cs.
    assert (Hb : bounded config
                   (calls (mkObjectsListCache
                             (gcache.mkCache (Size config) (Some (Lifetime config)) [])
                             (Logger_ config)) cs)).
    { apply calls_bounded; [exact Hpos|].
      unfold bounded, items, gcache.wf. simpl.
      repeat split; try reflexivity; [lia | constructor]. }
    split; [exact Hb|].
    intros now now' key oids Hne Hlt.
    destruct Hb as [_ [Hd _]]. now apply (Put_expires _ _ _ Hne Hd).
Qed.

Lemma cache_built_from_config_witness :
  (0 < Size (DefaultObjectsListConfig []))%Z /\
  exists l0,
    NewObjectsListCache (DefaultObjectsListConfig []) = Some l0 /\
    gcache.size (cache l0) = 100000%Z /\
    gcache.cfg_expiration (cache l0) = Some 60000000000%Z.
Proof.
  assert (Hpos : (0 < Size (DefaultObjectsListConfig []))%Z) by reflexivity.
  split; [exact Hpos|].
  destruct (proj2 (@cache_built_from_config string cid.text_id (DefaultObjectsListConfig []))
              Hpos) as [l0 [Hnew [_ [_ Hcalls]]]].
  exists l0. split; [exact Hnew|].
  destruct (proj1 (Hcalls [])) as [Hs [Hd _]].
  split; [exact Hs | exact Hd].
Defined.

End KeysConfig.


(** ** Signing of tree requests *)

Module Signing.

Import neofs.

(** C8 (request signing).  signRequest serializes the request body, signs
    exactly the serialized bytes with the client's private key, and hands the
    public key bytes and the signature to the callback, once.  It returns an
    error and leaves the request as it was, the callback not called, when the
    serialization fails or when the signing fails; and whenever it returns no
    error, the attached signature is the one of the serialized body. *)
Theorem signRequest_signs_serialized_body
    (Message PrivateKey Entropy Request : Type)
    (Marshal : Message -> result bytes)
    (Sign : PrivateKey -> bytes -> Entropy -> result bytes)
    (PublicKeyBytes : PrivateKey -> bytes)
    (c : TreeClient PrivateKey) (rnd : Entropy) (requestBody : Message)
    (f : bytes -> bytes -> Request -> Request) (req : Request) :
  let run := signRequest Marshal Sign PublicKeyBytes c rnd requestBody f req in
  (forall buf sign,
      Marshal requestBody = Ok buf ->
      Sign (key c) buf rnd = Ok sign ->
      run = (f (PublicKeyBytes (key c)) sign req, None))
  /\
  (forall err, Marshal requestBody = Err err -> run = (req, Some err))
  /\
  (forall buf err,
      Marshal requestBody = Ok buf ->
      Sign (key c) buf rnd = Err err ->
      run = (req, Some err))
  /\
  (snd run = None ->
   exists buf sign,
     Marshal requestBody = Ok buf /\
     Sign (key c) buf rnd = Ok sign /\
     fst run = f (PublicKeyBytes (key c)) sign req)
  /\
  (forall err, snd run = Some err -> fst run = req).
Proof.
  unfold signRequest, signData. cbv zeta.
  destruct (Marshal requestBody) as [buf|e] eqn:Em.
  - destruct (Sign (key c) buf rnd) as [sign|e] eqn:Es.
    + split; [|split; [|split; [|split]]].
      * intros buf' sign' Hb Hs. injection Hb as <-. rewrite Es in Hs.
        injection Hs as <-. reflexivity.
      * intros err H. discriminate H.
      * intros buf' err Hb Hs. injection Hb as <-. rewrite Es in Hs. discriminate Hs.
      * intros _. exists buf, sign. auto.
      * intros err H. discriminate H.
    + split; [|split; [|split; [|split]]].
      * intros buf' sign' Hb Hs. injection Hb as <-. rewrite Es in Hs. discriminate Hs.
      * intros err H. discriminate H.
      * intros buf' err Hb Hs. injection Hb as <-. rewrite Es in Hs.
        injection Hs as <-. reflexivity.
      * intros H. discriminate H.
      * intros err _. reflexivity.
  - split; [|split; [|split; [|split]]].
    + intros buf sign H. discriminate H.
    + intros err H. injection H as <-. reflexivity.
    + intros buf err H. discriminate H.
    + intros H. discriminate H.
    + intros err _. reflexivity.
Qed.

Lemma signRequest_signs_serialized_body_witness :
  (example.Marshal example.body = Ok example.body /\
   signRequest example.Marshal example.Sign example.PublicKeyBytes
     example.client example.rnd example.body example.attach []
   = ([([Byte.x02; Byte.x01], [Byte.x01; Byte.x02; Byte.xff; Byte.x0a; Byte.x0b])], None))
  /\
  (example.Sign (key example.keyless) example.body example.rnd
     = Err (Errorf "invalid private key") /\
   signRequest example.Marshal example.Sign example.PublicKeyBytes
     example.keyless example.rnd example.body example.attach []
   = ([], Some (Errorf "invalid private key"))).
Proof.
  split; (split; [reflexivity|]).
  - exact (proj1 (@signRequest_signs_serialized_body _ _ _ _
                    example.Marshal example.Sign example.PublicKeyBytes
                    example.client example.rnd example.body example.attach [])
             _ _ eq_refl eq_refl).
  - exact (proj1 (proj2 (proj2 (@signRequest_signs_serialized_body _ _ _ _
                    example.Marshal example.Sign example.PublicKeyBytes
                    example.keyless example.rnd example.body example.attach [])))
             _ _ eq_refl eq_refl).
Defined.

End Signing.

(** * Further properties of the code *)

(** ** More facts about the LRU cache *)

Module gcache_more.

Section More.

Variables K V : Type.
Variable K_eq_dec : forall a b : K, {a = b} + {a <> b}.

Local Abbreviation item := (gcache.lruItem K V).
Local Abbreviation lookup := (gcache.lookup K_eq_dec).
Local Abbreviation removeKey := (gcache.removeKey K_eq_dec).
Local Abbreviation keyIs := (gcache.keyIs K_eq_dec).

Lemma lookup_cons (a : item) (l : list item) (k : K) :
  lookup (a :: l) k = if K_eq_dec k (gcache.key a) then Some a else lookup l k.
Proof.
  unfold gcache.lookup. simpl. unfold gcache.keyIs.
  destruct (K_eq_dec k (gcache.key a)); reflexivity.
Qed.

Lemma lookup_app (l1 l2 : list item) (k : K) :
  lookup (l1 ++ l2) k =
  match lookup l1 k with
  | Some it => Some it
  | None => lookup l2 k
  end.
Proof.
  induction l1 as [|a l1 IH]; [reflexivity|].
  simpl app. rewrite !lookup_cons. destruct (K_eq_dec k (gcache.key a)); [reflexivity | exact IH].
Qed.

(** With one item per key, removing a key that is there takes out exactly
    one item. *)
Lemma removeKey_one (l : list item) (k : K) (it : item) :
  NoDup (map (@gcache.key K V) l) -> In it l -> gcache.key it = k ->
  S (List.length (removeKey l k)) = List.length l.
Proof.
  unfold gcache.removeKey. intros Hnd Hin Hk.
  induction l as [|a l IH]; [destruct Hin|].
  inversion Hnd as [|x xs Hnin Hnd']; subst x xs. simpl.
  destruct (keyIs k a) eqn:Ea; simpl.
  - f_equal. apply gcache_facts.keyIs_true in Ea.
    assert (Hnone : lookup l k = None).
    { apply gcache_facts.lookup_None. intros x Hx Hkx. apply Hnin.
      apply in_map_iff. exists x. split; [congruence | assumption]. }
    pose proof (gcache_facts.removeKey_absent K_eq_dec _ _ Hnone) as Hr.
    unfold gcache.removeKey in Hr. now rewrite Hr.
  - f_equal. destruct Hin as [->|Hin].
    + apply gcache_facts.keyIs_false in Ea. congruence.
    + now apply IH.
Qed.

(** A filter that looks at keys only keeps or drops all the items of a key. *)
Lemma lookup_filter_by_key (g : K -> bool) (l : list item) (q : K) :
  lookup (filter (fun it => g (gcache.key it)) l) q =
  if g q then lookup l q else None.
Proof.
  induction l as [|a l IH].
  - simpl. now destruct (g q).
  - rewrite (lookup_cons a l q). simpl filter.
    destruct (g (gcache.key a)) eqn:Ga.
    + rewrite lookup_cons. destruct (K_eq_dec q (gcache.key a)) as [Heq|Hne].
      * subst q. now rewrite Ga.
      * exact IH.
    + destruct (K_eq_dec q (gcache.key a)) as [Heq|Hne].
      * subst q. rewrite Ga in *. exact IH.
      * exact IH.
Qed.

End More.

End gcache_more.

(** ** How the calls of the objects-list cache compose *)

Module CacheBehaviour.

Import cache.
Local Open Scope string_scope.

Local Abbreviation lookup := (gcache.lookup Key_eq_dec).
Local Abbreviation removeKey := (gcache.removeKey Key_eq_dec).

(** The items after a [Put] that stores. *)
Lemma put_items (l : ObjectsListCache) (now : time.Time) (key : ObjectsListKey)
    (oids : list oid.ID) :
  oids <> [] ->
  items (fst (Put l now key oids)) =
  gcache.evictList (fst (gcache.Set_ Key_eq_dec (cache l) now (KObjectsList key) (VIDs oids))).
Proof.
  intros Hne. rewrite (GetPut.Put_nonempty l now key Hne). reflexivity.
Qed.

Lemma put_wf (l : ObjectsListCache) (now : time.Time) (key : ObjectsListKey)
    (oids : list oid.ID) :
  gcache.wf (cache l) -> gcache.wf (cache (fst (Put l now key oids))).
Proof.
  intros Hwf. destruct (KeysConfig.put_cache l now key oids) as [->| ->];
    [exact Hwf | now apply gcache_facts.Set_wf].
Qed.

Lemma put_expiration (l : ObjectsListCache) (now : time.Time) (key : ObjectsListKey)
    (oids : list oid.ID) :
  gcache.cfg_expiration (cache (fst (Put l now key oids))) = gcache.cfg_expiration (cache l).
Proof.
  destruct (KeysConfig.put_cache l now key oids) as [->| ->]; [reflexivity|].
  apply gcache_facts.Set_config.
Qed.

(** X1.  Last write wins.  A second Put under the same key replaces the first:
    Get answers the second list until the lifetime counted from the second
    Put is over, also when the lifetime of the first Put has passed by then,
    and the cache holds as many items as after the first Put. *)
Theorem Put_overwrites (l : ObjectsListCache) (t1 t2 now' : time.Time)
    (key : ObjectsListKey) (ids1 ids2 : list oid.ID) (d : time.Duration) :
  ids1 <> [] -> ids2 <> [] ->
  gcache.cfg_expiration (cache l) = Some d ->
  gcache.wf (cache l) ->
  (now' <= time.Add t2 d)%Z ->
  snd (Get (fst (Put (fst (Put l t1 key ids1)) t2 key ids2)) now' key) = Some ids2 /\
  List.length (items (fst (Put (fst (Put l t1 key ids1)) t2 key ids2))) =
  List.length (items (fst (Put l t1 key ids1))).
Proof.
  intros H1 H2 Hd Hwf Hle.
  set (l1 := fst (Put l t1 key ids1)).
  assert (Hd1 : gcache.cfg_expiration (cache l1) = Some d)
    by (unfold l1; now rewrite put_expiration).
  assert (Hwf1 : gcache.wf (cache l1)) by (unfold l1; now apply put_wf).
  split.
  - rewrite cache_facts.Get_answer, (put_items l1 t2 key H2), GetPut.Set_lookup, Hd1.
    unfold gcache.IsExpired, time.Before. simpl.
    apply Z.ltb_ge in Hle. now rewrite Hle.
  - assert (Hl1 : exists it, lookup (items l1) (KObjectsList key) = Some it).
    { unfold l1. rewrite (put_items l t1 key H1), GetPut.Set_lookup. eauto. }
    destruct Hl1 as [it Hit].
    rewrite (put_items l1 t2 key H2). unfold gcache.Set_.
    unfold items in Hit. rewrite Hit. simpl.
    destruct (gcache_facts.lookup_Some _ _ _ Hit) as [Hin Hk].
    apply gcache_more.removeKey_one with (it := it); [exact Hwf1 | exact Hin | exact Hk].
Qed.

Lemma Put_overwrites_witness :
  snd (Get (fst (Put (fst (Put scenario.listed 5 scenario.key_a [scenario.id1]))
                   70000000000 scenario.key_a [scenario.id2]))
         100000000000 scenario.key_a) = Some [scenario.id2].
Proof.
  assert (H1 : [scenario.id1] <> []) by discriminate.
  assert (H2 : [scenario.id2] <> []) by discriminate.
  assert (Hwf : gcache.wf (cache scenario.listed)).
  { unfold gcache.wf. vm_compute. repeat constructor; simpl; intuition discriminate. }
  assert (Hle : (100000000000 <= time.Add 70000000000 DefaultObjectsListCacheLifetime)%Z)
    by (vm_compute; discriminate).
  exact (proj1 (@Put_overwrites scenario.listed 5 70000000000 100000000000 scenario.key_a
                  [scenario.id1] [scenario.id2] DefaultObjectsListCacheLifetime
                  H1 H2 eq_refl Hwf Hle)).
Defined.

(** X2.  A Put leaves the other keys alone as long as nothing has to be evicted:
    when the key is already in the cache, or the cache has room, Get on any
    other key answers what it answered before. *)
Theorem Put_frame (l : ObjectsListCache) (now now' : time.Time)
    (key key' : ObjectsListKey) (oids : list oid.ID) :
  key' <> key ->
  lookup (items l) (KObjectsList key) <> None \/
  (Z.of_nat (List.length (items l)) < gcache.size (cache l))%Z ->
  snd (Get (fst (Put l now key oids)) now' key') = snd (Get l now' key').
Proof.
  intros Hne Hroom. destruct oids as [|o oids]; [reflexivity|].
  rewrite !cache_facts.Get_answer. rewrite put_items by discriminate.
  unfold gcache.Set_, items in *.
  destruct (lookup (gcache.evictList (cache l)) (KObjectsList key)) as [it|] eqn:El;
    cbn [fst gcache.with_list gcache.evictList].
  - rewrite gcache_more.lookup_cons. cbn [gcache.key].
    destruct (Key_eq_dec (KObjectsList key') (KObjectsList key)) as [Heq|_];
      [injection Heq as Heq; contradiction|].
    rewrite gcache_facts.lookup_removeKey_other; [reflexivity|]. congruence.
  - destruct Hroom as [Hc|Hlt]; [contradiction|].
    assert ((Z.of_nat (List.length (gcache.evictList (cache l))) >=? gcache.size (cache l))
            = false) as ->.
    { rewrite Z.geb_leb. apply Z.leb_gt. exact Hlt. }
    rewrite gcache_more.lookup_cons. cbn [gcache.key].
    destruct (Key_eq_dec (KObjectsList key') (KObjectsList key)) as [Heq|_];
      [injection Heq as Heq; contradiction | reflexivity].
Qed.

Lemma Put_frame_witness :
  snd (Get (fst (Put scenario.listed 5 scenario.key_a [scenario.id2])) 6 scenario.key_z)
  = Some [scenario.id2].
Proof.
  assert (Hne : scenario.key_z <> scenario.key_a) by discriminate.
  assert (Hin : lookup (items scenario.listed) (KObjectsList scenario.key_a) <> None)
    by (vm_compute; discriminate).
  exact (eq_trans (@Put_frame scenario.listed 5 6 scenario.key_a scenario.key_z
                     [scenario.id2] Hne (or_introl Hin))
                  eq_refl).
Defined.

(** X3.  Eviction takes the least recently used entry.  On a full cache, a Put
    under a key that is not there drops the item at the back of the list and
    no other: the key of the dropped item has no entry any more, the new list
    is in front, and every other key answers what it answered before. *)
Theorem Put_evicts_least_recently_used (l : ObjectsListCache) (now : time.Time)
    (key : ObjectsListKey) (oids : list oid.ID)
    (rest : list (gcache.lruItem Key Value)) (victim : gcache.lruItem Key Value) :
  oids <> [] ->
  gcache.wf (cache l) ->
  items l = (rest ++ [victim])%list ->
  lookup (items l) (KObjectsList key) = None ->
  (gcache.size (cache l) <= Z.of_nat (List.length (items l)))%Z ->
  (exists e, items (fst (Put l now key oids)) =
             gcache.mkItem (KObjectsList key) (VIDs oids) e :: rest) /\
  lookup (items (fst (Put l now key oids))) (gcache.key victim) = None /\
  (forall q now',
      KObjectsList q <> gcache.key victim -> q <> key ->
      snd (Get (fst (Put l now key oids)) now' q) = snd (Get l now' q)).
Proof.
  intros Hne Hwf Hitems Hnone Hfull.
  destruct (gcache_facts.Set_evicts_back Key_eq_dec (cache l) now (KObjectsList key)
              (VIDs oids) Hnone Hfull)
    as [e He].
  assert (Hi : items (fst (Put l now key oids)) =
               gcache.mkItem (KObjectsList key) (VIDs oids) e :: rest).
  { rewrite (put_items l now key Hne), He. f_equal.
    unfold items in Hitems. rewrite Hitems. apply removelast_last. }
  assert (Hvk : gcache.key victim <> KObjectsList key).
  { rewrite gcache_facts.lookup_None in Hnone. apply Hnone.
    rewrite Hitems. apply in_or_app. right. now left. }
  assert (Hrest : lookup rest (gcache.key victim) = None).
  { apply gcache_facts.lookup_None. intros it Hin Hk.
    unfold gcache.wf in Hwf. unfold items in Hitems. rewrite Hitems, map_app in Hwf.
    apply NoDup_remove_2 in Hwf. simpl in Hwf. apply Hwf. rewrite app_nil_r.
    apply in_map_iff. exists it. split; assumption. }
  split; [exists e; exact Hi | split].
  - rewrite Hi, gcache_more.lookup_cons. cbn [gcache.key].
    destruct (Key_eq_dec (gcache.key victim) (KObjectsList key)); [contradiction | exact Hrest].
  - intros q now' Hqv Hqk. rewrite !cache_facts.Get_answer, Hi, Hitems.
    rewrite gcache_more.lookup_cons, gcache_more.lookup_app. cbn [gcache.key].
    destruct (Key_eq_dec (KObjectsList q) (KObjectsList key)) as [Heq|_];
      [injection Heq as Heq; contradiction|].
    destruct (lookup rest (KObjectsList q)) as [it|]; [reflexivity|].
    rewrite gcache_more.lookup_cons.
    destruct (Key_eq_dec (KObjectsList q) (gcache.key victim)); [contradiction | reflexivity].
Qed.

(** X4.  What was read most recently is not what goes.  After a Get that hits,
    the entry is at the front of the list: provided the cache holds another
    entry, the next Put, under another key, does not evict it, full cache or
    not. *)
Theorem Get_hit_survives_next_Put (l : ObjectsListCache) (now now2 : time.Time)
    (q key : ObjectsListKey) (oids : list oid.ID) (it : gcache.lruItem Key Value) :
  lookup (items l) (KObjectsList q) = Some it ->
  gcache.IsExpired it now = false ->
  removeKey (items l) (KObjectsList q) <> [] ->
  key <> q ->
  lookup (items (fst (Put (fst (Get l now q)) now2 key oids))) (KObjectsList q) = Some it.
Proof.
  intros Hl He Hother Hne.
  destruct (gcache_facts.lookup_Some _ _ _ Hl) as [_ Hk].
  assert (Hg : items (fst (Get l now q)) = it :: removeKey (items l) (KObjectsList q)).
  { unfold items. rewrite KeysConfig.get_cache.
    now apply gcache_facts.Get_moves_to_front. }
  assert (Hfront : forall tl, lookup (it :: tl) (KObjectsList q) = Some it).
  { intros tl. rewrite gcache_more.lookup_cons.
    destruct (Key_eq_dec (KObjectsList q) (gcache.key it)); [reflexivity | congruence]. }
  destruct oids as [|o oids].
  - cbn [Put List.length Nat.eqb fst]. rewrite Hg. apply Hfront.
  - rewrite put_items by discriminate. unfold gcache.Set_.
    fold (items (fst (Get l now q))). rewrite Hg.
    assert (Hnk : KObjectsList q <> KObjectsList key) by congruence.
    destruct (lookup (it :: removeKey (items l) (KObjectsList q)) (KObjectsList key))
      as [old|] eqn:Eold; cbn [fst gcache.with_list gcache.evictList].
    + rewrite gcache_more.lookup_cons. cbn [gcache.key].
      destruct (Key_eq_dec (KObjectsList q) (KObjectsList key)); [contradiction|].
      rewrite gcache_facts.lookup_removeKey_other by exact Hnk. apply Hfront.
    + rewrite gcache_more.lookup_cons. cbn [gcache.key].
      destruct (Key_eq_dec (KObjectsList q) (KObjectsList key)); [contradiction|].
      destruct (_ >=? _); [|apply Hfront].
      unfold gcache.evict1.
      destruct (removeKey (items l) (KObjectsList q)) as [|x tl] eqn:Er; [contradiction|].
      change (removelast (it :: x :: tl)) with (it :: removelast (x :: tl)).
      apply Hfront.
Qed.


Lemma small_full_wf : gcache.wf (cache small.full).
Proof.
  unfold gcache.wf. vm_compute. repeat constructor; simpl; intuition discriminate.
Qed.

Lemma Put_evicts_least_recently_used_witness :
  items small.full = [small.item_z; small.item_a] /\
  snd (Get small.full 2 scenario.key_a) = Some [scenario.id1] /\
  snd (Get (fst (Put small.full 2 scenario.key_root [scenario.id1; scenario.id2]))
         2 scenario.key_a) = None /\
  snd (Get (fst (Put small.full 2 scenario.key_root [scenario.id1; scenario.id2]))
         2 scenario.key_z) = Some [scenario.id2].
Proof.
  assert (Hne : [scenario.id1; scenario.id2] <> []) by discriminate.
  assert (Hfull : (gcache.size (cache small.full)
                   <= Z.of_nat (List.length (items small.full)))%Z)
    by (vm_compute; discriminate).
  pose proof (@Put_evicts_least_recently_used small.full 2 scenario.key_root
                [scenario.id1; scenario.id2] [small.item_z] small.item_a
                Hne small_full_wf eq_refl eq_refl Hfull) as [_ [Hgone Hkeep]].
  split; [reflexivity | split; [reflexivity | split]].
  - rewrite cache_facts.Get_answer.
    change (KObjectsList scenario.key_a) with (gcache.key small.item_a).
    now rewrite Hgone.
  - refine (eq_trans (Hkeep scenario.key_z 2%Z _ _) eq_refl); discriminate.
Defined.

Lemma Get_hit_survives_next_Put_witness :
  snd (Get (fst (Put (fst (Get small.full 2 scenario.key_a)) 3 scenario.key_root
                   [scenario.id1; scenario.id2])) 4 scenario.key_a) = Some [scenario.id1] /\
  snd (Get (fst (Put (fst (Get small.full 2 scenario.key_a)) 3 scenario.key_root
                   [scenario.id1; scenario.id2])) 4 scenario.key_z) = None.
Proof.
  assert (Hother : removeKey (items small.full) (KObjectsList scenario.key_a) <> [])
    by (vm_compute; discriminate).
  assert (Hne : scenario.key_root <> scenario.key_a) by discriminate.
  pose proof (@Get_hit_survives_next_Put small.full 2 3 scenario.key_a scenario.key_root
                [scenario.id1; scenario.id2] small.item_a eq_refl eq_refl Hother Hne) as H.
  split; [|reflexivity].
  rewrite cache_facts.Get_answer, H. reflexivity.
Defined.

(** The facts behind the next theorems: what a Get leaves in the cache. *)
Lemma get_items (l : ObjectsListCache) (now : time.Time) (key : ObjectsListKey) :
  items (fst (Get l now key)) =
  match lookup (items l) (KObjectsList key) with
  | Some it =>
      if gcache.IsExpired it now then removeKey (items l) (KObjectsList key)
      else it :: removeKey (items l) (KObjectsList key)
  | None => items l
  end.
Proof.
  unfold items. rewrite KeysConfig.get_cache. unfold gcache.Get.
  destruct (lookup (gcache.evictList (cache l)) (KObjectsList key)) as [it|]; [|reflexivity].
  destruct (gcache.IsExpired it now); reflexivity.
Qed.

Lemma get_lookup (l : ObjectsListCache) (now : time.Time) (key : ObjectsListKey) (q : Key) :
  lookup (items (fst (Get l now key))) q =
  match lookup (items l) (KObjectsList key) with
  | Some it =>
      if gcache.IsExpired it now
      then (if Key_eq_dec q (KObjectsList key) then None else lookup (items l) q)
      else lookup (items l) q
  | None => lookup (items l) q
  end.
Proof.
  rewrite get_items.
  destruct (lookup (items l) (KObjectsList key)) as [it|] eqn:El; [|reflexivity].
  destruct (gcache_facts.lookup_Some _ _ _ El) as [_ Hk].
  destruct (gcache.IsExpired it now).
  - destruct (Key_eq_dec q (KObjectsList key)) as [->|Hne].
    + apply gcache_facts.lookup_removeKey_same.
    + now apply gcache_facts.lookup_removeKey_other.
  - rewrite gcache_more.lookup_cons, Hk.
    destruct (Key_eq_dec q (KObjectsList key)) as [->|Hne]; [now rewrite El|].
    now apply gcache_facts.lookup_removeKey_other.
Qed.

(** X5.  Get changes no later answer.  It reorders the list and drops the entry
    it finds expired, but at the instant of the call and at every later one,
    Get on any key, the same or another, answers as if the first Get had not
    been made. *)
Theorem Get_changes_no_later_answer (l : ObjectsListCache) (now now' : time.Time)
    (key q : ObjectsListKey) :
  (now <= now')%Z ->
  snd (Get (fst (Get l now key)) now' q) = snd (Get l now' q).
Proof.
  intros Hle. rewrite !cache_facts.Get_answer, get_lookup.
  destruct (lookup (items l) (KObjectsList key)) as [it|] eqn:El; [|reflexivity].
  destruct (gcache.IsExpired it now) eqn:He; [|reflexivity].
  destruct (Key_eq_dec (KObjectsList q) (KObjectsList key)) as [Heq|Hne]; [|reflexivity].
  rewrite Heq, El. now rewrite (gcache_facts.IsExpired_mono it Hle He).
Qed.

Lemma Get_changes_no_later_answer_witness :
  snd (Get (fst (Get scenario.listed 3 scenario.key_a)) 4 scenario.key_root)
  = Some [scenario.id1; scenario.id2].
Proof.
  assert (Hle : (3 <= 4)%Z) by lia.
  exact (eq_trans (@Get_changes_no_later_answer scenario.listed 3 4 scenario.key_a
                     scenario.key_root Hle) eq_refl).
Defined.

(** X6.  A Get that finds its entry expired deletes it.  The answer is nil, the
    key has no item afterwards and, the cache holding one item per key, the
    cache holds one item fewer. *)
Theorem Get_purges_expired_entry (l : ObjectsListCache) (now : time.Time)
    (key : ObjectsListKey) (it : gcache.lruItem Key Value) :
  gcache.wf (cache l) ->
  lookup (items l) (KObjectsList key) = Some it ->
  gcache.IsExpired it now = true ->
  snd (Get l now key) = None /\
  lookup (items (fst (Get l now key))) (KObjectsList key) = None /\
  ~ In it (items (fst (Get l now key))) /\
  S (List.length (items (fst (Get l now key)))) = List.length (items l).
Proof.
  intros Hwf Hl He. destruct (gcache_facts.lookup_Some _ _ _ Hl) as [Hin Hk].
  split; [|split; [|split]].
  - now rewrite cache_facts.Get_answer, Hl, He.
  - rewrite get_lookup, Hl, He.
    destruct (Key_eq_dec (KObjectsList key) (KObjectsList key)); [reflexivity | contradiction].
  - rewrite get_items, Hl, He. intros H. apply gcache_facts.In_removeKey in H. tauto.
  - rewrite get_items, Hl, He.
    apply gcache_more.removeKey_one with (it := it); [exact Hwf | exact Hin | exact Hk].
Qed.

Lemma Get_purges_expired_entry_witness :
  gcache.IsExpired small.item_a 60000000001 = true /\
  items (fst (Get small.full 60000000001 scenario.key_a)) = [small.item_z] /\
  S (List.length (items (fst (Get small.full 60000000001 scenario.key_a)))) = 2%nat.
Proof.
  split; [reflexivity | split; [reflexivity|]].
  exact (proj2 (proj2 (proj2 (@Get_purges_expired_entry small.full 60000000001
                                scenario.key_a small.item_a small_full_wf
                                eq_refl eq_refl)))).
Defined.


Lemma In_removelast {A : Type} (x : A) (l : list A) : In x (removelast l) -> In x l.
Proof.
  destruct l as [|a l]; [intros []|]. intros H.
  rewrite (app_removelast_last a (l := a :: l)) by discriminate.
  apply in_or_app. now left.
Qed.

(** Where the items of the cache come from: a call leaves items that were
    there, or the one it has just stored. *)
Lemma call_items_origin {CID : Type} {E : cid.Encoding CID} (l : ObjectsListCache)
    (c : Call CID) (it : gcache.lruItem Key Value) :
  In it (items (call l c)) ->
  In it (items l) \/
  exists now k oids,
    c = CallPut now k oids /\ oids <> [] /\
    it = gcache.mkItem (KObjectsList k) (VIDs oids)
           (match gcache.cfg_expiration (cache l) with
            | Some d => Some (time.Add now d)
            | None => match lookup (items l) (KObjectsList k) with
                      | Some old => gcache.expiration old
                      | None => None
                      end
            end).
Proof.
  destruct c as [now key|now key oids|now objectName cnr]; cbn [call].
  - rewrite get_items. intros H. left.
    destruct (lookup (items l) (KObjectsList key)) as [x|] eqn:El; [|exact H].
    destruct (gcache_facts.lookup_Some _ _ _ El) as [Hin _].
    destruct (gcache.IsExpired x now).
    + apply gcache_facts.In_removeKey in H. tauto.
    + destruct H as [<-|H]; [exact Hin|]. apply gcache_facts.In_removeKey in H. tauto.
  - destruct oids as [|o oids]; [now left|].
    rewrite put_items by discriminate. unfold gcache.Set_. fold (items l).
    destruct (lookup (items l) (KObjectsList key)) as [old|] eqn:El;
      cbn [fst gcache.with_list gcache.evictList]; intros [<-|H].
    + right. exists now, key, (o :: oids). repeat split; [discriminate|].
      now rewrite El.
    + left. apply gcache_facts.In_removeKey in H. tauto.
    + right. exists now, key, (o :: oids). repeat split; [discriminate|].
      now rewrite El.
    + left. destruct (_ >=? _); [|exact H]. now apply In_removelast.
  - unfold CleanCacheEntriesContainingObject. rewrite cache_facts.clean_loop_items.
    intros H. apply cache_facts.loop_In in H. tauto.
Qed.

Lemma call_expiration {CID : Type} {E : cid.Encoding CID} (l : ObjectsListCache)
    (c : Call CID) :
  gcache.cfg_expiration (cache (call l c)) = gcache.cfg_expiration (cache l).
Proof.
  destruct c as [now key|now key oids|now objectName cnr]; cbn [call].
  - rewrite KeysConfig.get_cache. apply gcache_facts.Get_config.
  - apply put_expiration.
  - apply KeysConfig.clean_loop_config.
Qed.

(** X7.  The lifetime of an entry is fixed when it is put.  Gets, hits included,
    clean-ups and Puts under other keys do not extend it: whatever such calls
    follow the Put, Get on the key is a miss once the lifetime counted from
    the Put is over. *)
Theorem lifetime_is_fixed_at_Put {CID : Type} {E : cid.Encoding CID}
    (l : ObjectsListCache) (now now' : time.Time) (key : ObjectsListKey)
    (oids : list oid.ID) (d : time.Duration) (cs : list (Call CID)) :
  oids <> [] ->
  gcache.cfg_expiration (cache l) = Some d ->
  cache_states.noPutOn key cs = true ->
  (time.Add now d < now')%Z ->
  snd (Get (calls (fst (Put l now key oids)) cs) now' key) = None.
Proof.
  intros Hne Hd Hcs Hlt.
  set (inv := fun s : ObjectsListCache =>
                forall it, In it (items s) -> gcache.key it = KObjectsList key ->
                           gcache.IsExpired it now' = true).
  assert (Hinit : inv (fst (Put l now key oids))).
  { intros it. rewrite (put_items l now key Hne). unfold gcache.Set_. fold (items l).
    rewrite Hd.
    destruct (lookup (items l) (KObjectsList key)) as [old|] eqn:El;
      cbn [fst gcache.with_list gcache.evictList]; intros [<-|H] Hk.
    - unfold gcache.IsExpired, time.Before. simpl. now apply Z.ltb_lt.
    - apply gcache_facts.In_removeKey in H. tauto.
    - unfold gcache.IsExpired, time.Before. simpl. now apply Z.ltb_lt.
    - exfalso. rewrite gcache_facts.lookup_None in El. apply (El it); [|exact Hk].
      destruct (_ >=? _); [now apply In_removelast | exact H]. }
  clear Hne. revert Hinit. generalize (fst (Put l now key oids)). unfold calls.
  induction cs as [|c cs IH]; intros s Hinv; cbn [fold_left].
  - rewrite cache_facts.Get_answer.
    destruct (lookup (items s) (KObjectsList key)) as [it|] eqn:El; [|reflexivity].
    destruct (gcache_facts.lookup_Some _ _ _ El) as [Hin Hk].
    now rewrite (Hinv it Hin Hk).
  - cbn [cache_states.noPutOn forallb] in Hcs. apply andb_true_iff in Hcs.
    destruct Hcs as [Hc Hcs]. apply IH; [exact Hcs|].
    intros it Hin Hk. destruct (call_items_origin _ _ _ Hin) as [Hold|[n [k [o [Heq [Ho Hit]]]]]].
    + now apply Hinv.
    + exfalso. subst c. rewrite Hit in Hk. cbn [gcache.key] in Hk. injection Hk as ->.
      cbn [cache_states.putsKey] in Hc.
      destruct (ObjectsListKey_eq_dec key key); [|contradiction].
      destruct o; [contradiction | discriminate].
Qed.


Lemma lifetime_is_fixed_at_Put_witness :
  snd (Get (fst (Get (fst (Put scenario.fresh 0 scenario.key_a [scenario.id1]))
                   59000000000 scenario.key_a)) 60000000000 scenario.key_a)
    = Some [scenario.id1] /\
  snd (Get (calls (E := cid.text_id) (fst (Put scenario.fresh 0 scenario.key_a [scenario.id1]))
              [CallGet 59000000000 scenario.key_a;
               CallPut 59000000001 scenario.key_z [scenario.id2];
               CallClean 59000000002 "q.txt" scenario.C1;
               CallGet 60000000000 scenario.key_a])
         60000000001 scenario.key_a) = None.
Proof.
  assert (Hne : [scenario.id1] <> []) by discriminate.
  assert (Hlt : (time.Add 0 DefaultObjectsListCacheLifetime < 60000000001)%Z) by reflexivity.
  split; [reflexivity|].
  exact (@lifetime_is_fixed_at_Put string cid.text_id scenario.fresh 0 60000000001
           scenario.key_a [scenario.id1] DefaultObjectsListCacheLifetime
           [CallGet 59000000000 scenario.key_a;
            CallPut 59000000001 scenario.key_z [scenario.id2];
            CallClean 59000000002 "q.txt" scenario.C1;
            CallGet 60000000000 scenario.key_a]
           Hne eq_refl eq_refl Hlt).
Defined.

Lemma filter_all {A : Type} (f : A -> bool) (l : list A) :
  (forall x, In x l -> f x = true) -> filter f l = l.
Proof.
  induction l as [|a l IH]; intros H; simpl; [reflexivity|].
  rewrite (H a (or_introl eq_refl)). f_equal. apply IH. intros x Hx. apply H. now right.
Qed.

(** The clean-up as one filter over the items. *)
Lemma clean_items {CID : Type} {E : cid.Encoding CID} (l : ObjectsListCache)
    (now : time.Time) (objectName : string) (cnr : CID) :
  items (CleanCacheEntriesContainingObject l now objectName cnr) =
  filter (fun it => negb (hit (cid.EncodeToString cnr) objectName (gcache.key it) &&
                          inb (gcache.key it) (gcache.Keys Key_eq_dec true (cache l) now)))
    (items l).
Proof.
  unfold CleanCacheEntriesContainingObject.
  rewrite cache_facts.clean_loop_items. apply cache_facts.loop_as_filter.
Qed.

(** A key listed by [Keys(true)] has a live item. *)
Lemma Keys_live_inv (c : GCache) (now : time.Time) (k : Key) :
  In k (gcache.Keys Key_eq_dec true c now) ->
  exists it, lookup (gcache.evictList c) k = Some it /\ gcache.IsExpired it now = false.
Proof.
  unfold gcache.Keys. intros H. apply in_map_iff in H. destruct H as [x [Hk Hx]].
  apply filter_In in Hx. destruct Hx as [_ Hhas]. simpl in Hhas.
  unfold gcache.has in Hhas. rewrite Hk in Hhas.
  destruct (lookup (gcache.evictList c) k) as [it|]; [|discriminate].
  exists it. split; [reflexivity|]. now apply negb_true_iff in Hhas.
Qed.

Lemma inb_true (q : Key) (ks : list Key) : inb q ks = true <-> In q ks.
Proof. unfold inb. destruct (in_dec Key_eq_dec q ks); split; congruence. Qed.

(** X8.  Cleaning up twice is cleaning up once.  A second clean-up for the same
    container and object name, at the same instant or later, finds nothing
    more to remove. *)
Theorem Clean_idempotent {CID : Type} {E : cid.Encoding CID} (l : ObjectsListCache)
    (now now2 : time.Time) (objectName : string) (cnr : CID) :
  (now <= now2)%Z ->
  items (CleanCacheEntriesContainingObject
           (CleanCacheEntriesContainingObject l now objectName cnr) now2 objectName cnr) =
  items (CleanCacheEntriesContainingObject l now objectName cnr).
Proof.
  intros Hle. rewrite (clean_items (CleanCacheEntriesContainingObject l now objectName cnr)).
  apply filter_all. intros x Hx.
  destruct (hit (cid.EncodeToString cnr) objectName (gcache.key x)) eqn:Hh; [|reflexivity].
  destruct (inb (gcache.key x)
              (gcache.Keys Key_eq_dec true
                 (cache (CleanCacheEntriesContainingObject l now objectName cnr)) now2))
    eqn:Hi; [|reflexivity].
  exfalso. apply inb_true in Hi. apply Keys_live_inv in Hi. destruct Hi as [z [Hz Hlive]].
  change (gcache.evictList (cache (CleanCacheEntriesContainingObject l now objectName cnr)))
    with (items (CleanCacheEntriesContainingObject l now objectName cnr)) in Hz.
  rewrite clean_items in Hz.
  rewrite (gcache_more.lookup_filter_by_key Key_eq_dec
             (fun k => negb (hit (cid.EncodeToString cnr) objectName k &&
                             inb k (gcache.Keys Key_eq_dec true (cache l) now)))) in Hz.
  rewrite Hh in Hz. simpl in Hz.
  destruct (inb (gcache.key x) (gcache.Keys Key_eq_dec true (cache l) now)) eqn:Hk;
    [discriminate|].
  simpl in Hz.
  assert (Hlive1 : gcache.IsExpired z now = false).
  { destruct (gcache.IsExpired z now) eqn:He; [|reflexivity].
    rewrite (gcache_facts.IsExpired_mono z Hle He) in Hlive. discriminate. }
  pose proof (gcache_facts.Keys_live Key_eq_dec (cache l) now _ Hz Hlive1) as Hin.
  apply inb_true in Hin. congruence.
Qed.

Lemma Clean_idempotent_witness :
  items (CleanCacheEntriesContainingObject (E := cid.text_id)
           (CleanCacheEntriesContainingObject (E := cid.text_id)
              scenario.listed 3 "a/b/d.txt" scenario.C1) 4 "a/b/d.txt" scenario.C1)
  = [gcache.mkItem (KObjectsList scenario.key_z) (VIDs [scenario.id2]) (Some 60000000002%Z)].
Proof.
  assert (Hle : (3 <= 4)%Z) by lia.
  exact (eq_trans (@Clean_idempotent string cid.text_id scenario.listed 3 4 "a/b/d.txt"
                     scenario.C1 Hle) eq_refl).
Defined.

(** With one item per key, the item found under a key is the item. *)
Lemma lookup_own_key (l : list (gcache.lruItem Key Value)) (it : gcache.lruItem Key Value) :
  NoDup (map (@gcache.key Key Value) l) -> In it l -> lookup l (gcache.key it) = Some it.
Proof.
  induction l as [|a l IH]; intros Hnd Hin; [destruct Hin|].
  inversion Hnd as [|x xs Hnin Hnd']; subst x xs.
  rewrite gcache_more.lookup_cons. destruct Hin as [->|Hin].
  - destruct (Key_eq_dec (gcache.key it) (gcache.key it)); [reflexivity | contradiction].
  - destruct (Key_eq_dec (gcache.key it) (gcache.key a)) as [Heq|_]; [|now apply IH].
    exfalso. apply Hnin. rewrite <- Heq. now apply in_map.
Qed.

(** X9.  The clean-up passes over expired entries.  [Keys(true)] does not list
    them, so an entry that is expired when the clean-up runs stays in the
    cache, matching or not: it is not retrievable, but it keeps its place
    until a Get on its key or an eviction takes it out. *)
Theorem Clean_skips_expired_entries {CID : Type} {E : cid.Encoding CID}
    (l : ObjectsListCache) (now : time.Time) (objectName : string) (cnr : CID)
    (it : gcache.lruItem Key Value) :
  gcache.wf (cache l) ->
  In it (items l) ->
  gcache.IsExpired it now = true ->
  In it (items (CleanCacheEntriesContainingObject l now objectName cnr)).
Proof.
  intros Hwf Hin He. rewrite clean_items. apply filter_In. split; [exact Hin|].
  apply negb_true_iff. apply andb_false_iff. right.
  destruct (inb (gcache.key it) (gcache.Keys Key_eq_dec true (cache l) now)) eqn:Hi;
    [|reflexivity].
  exfalso. apply inb_true in Hi. apply Keys_live_inv in Hi. destruct Hi as [z [Hz Hlive]].
  fold (items l) in Hz. rewrite (@lookup_own_key (items l) it Hwf Hin) in Hz. injection Hz as <-.
  congruence.
Qed.

Lemma Clean_skips_expired_entries_witness :
  gcache.IsExpired small.item_a 60000000001 = true /\
  hit scenario.C1 "a/b/d.txt" (gcache.key small.item_a) = true /\
  In small.item_a
    (items (CleanCacheEntriesContainingObject (E := cid.text_id)
              small.full 60000000001 "a/b/d.txt" scenario.C1)).
Proof.
  split; [reflexivity | split; [reflexivity|]].
  assert (Hin : In small.item_a (items small.full)) by (right; left; reflexivity).
  exact (@Clean_skips_expired_entries string cid.text_id small.full 60000000001 "a/b/d.txt"
           scenario.C1 small.item_a small_full_wf Hin eq_refl).
Defined.


Lemma wellTyped_spec (l : ObjectsListCache) :
  cache_states.wellTyped l = true <->
  forall it, In it (items l) ->
             exists k o oids, gcache.key it = KObjectsList k /\ gcache.value it = VIDs (o :: oids).
Proof.
  unfold cache_states.wellTyped. rewrite forallb_forall.
  split; intros H it Hin; specialize (H it Hin); unfold cache_states.wellTypedItem in *.
  - destruct (gcache.key it) as [k|t r]; [|discriminate].
    destruct (gcache.value it) as [[|o oids]|t]; try discriminate. eauto.
  - destruct H as [k [o [oids [-> ->]]]]. reflexivity.
Qed.

Lemma call_wellTyped {CID : Type} {E : cid.Encoding CID} (l : ObjectsListCache)
    (c : Call CID) :
  cache_states.wellTyped l = true -> cache_states.wellTyped (call l c) = true.
Proof.
  rewrite !wellTyped_spec. intros H it Hin.
  destruct (call_items_origin _ _ _ Hin) as [Hold|[n [k [o [_ [Ho ->]]]]]].
  - now apply H.
  - destruct o as [|x o]; [contradiction|]. exists k, x, o. split; reflexivity.
Qed.

Lemma clean_loop_logger (cidStr objectName : string) (ks : list Key) (l : ObjectsListCache) :
  (forall k, In k ks -> exists q, k = KObjectsList q) ->
  logger (fold_left (cleanStep cidStr objectName) ks l) = logger l.
Proof.
  revert l. induction ks as [|a ks IH]; intros l H; simpl; [reflexivity|].
  rewrite IH by (intros k Hk; apply H; now right).
  destruct (H a (or_introl eq_refl)) as [q ->]. unfold cleanStep.
  now destruct (containsObject cidStr objectName q).
Qed.

Lemma call_logger {CID : Type} {E : cid.Encoding CID} (l : ObjectsListCache) (c : Call CID) :
  cache_states.wellTyped l = true -> logger (call l c) = logger l.
Proof.
  intros Hwt. rewrite wellTyped_spec in Hwt.
  destruct c as [now key|now key oids|now objectName cnr]; cbn [call].
  - unfold Get, gcache.Get. fold (items l).
    destruct (lookup (items l) (KObjectsList key)) as [it|] eqn:El; [|reflexivity].
    destruct (gcache_facts.lookup_Some _ _ _ El) as [Hin _].
    destruct (Hwt it Hin) as [k [o [oids [_ Hv]]]].
    destruct (negb (gcache.IsExpired it now)); [|reflexivity]. now rewrite Hv.
  - destruct oids as [|o oids]; [reflexivity|].
    now rewrite GetPut.Put_nonempty by discriminate.
  - unfold CleanCacheEntriesContainingObject. apply clean_loop_logger.
    intros k Hk. unfold gcache.Keys in Hk. apply in_map_iff in Hk.
    destruct Hk as [it [<- Hit]]. apply filter_In in Hit. destruct Hit as [Hin _].
    destruct (Hwt it Hin) as [q [_ [_ [Hq _]]]]. eauto.
Qed.

(** X10.  The defensive branches are not reached through the cache's own methods.
    Starting from a cache made by the constructor, after any sequence of Get,
    Put and clean-up calls every item is an ObjectsListKey with a non-empty id
    list.  So neither Get nor the clean-up ever writes its "invalid cache
    entry type" or "invalid cache key type" warning, and a list that Get
    returns is never empty. *)
Theorem constructed_cache_stays_well_typed {CID : Type} {E : cid.Encoding CID}
    (config : Config) (l0 : ObjectsListCache) (cs : list (Call CID)) :
  NewObjectsListCache config = Some l0 ->
  cache_states.wellTyped (calls l0 cs) = true /\
  logger (calls l0 cs) = Logger_ config /\
  (forall now key ids, snd (Get (calls l0 cs) now key) = Some ids -> ids <> []).
Proof.
  intros Hnew.
  assert (Hinit : cache_states.wellTyped l0 = true /\ logger l0 = Logger_ config).
  { unfold NewObjectsListCache, gcache.Build in Hnew.
    destruct (Size config <=? 0)%Z; [discriminate|]. injection Hnew as <-. split; reflexivity. }
  clear Hnew.
  assert (Hall : cache_states.wellTyped (calls l0 cs) = true /\
                 logger (calls l0 cs) = Logger_ config).
  { revert l0 Hinit. unfold calls.
    induction cs as [|c cs IH]; intros l0 [Hwt Hlog]; cbn [fold_left]; [now split|].
    apply IH. split; [now apply call_wellTyped|]. now rewrite call_logger. }
  destruct Hall as [Hwt Hlog]. split; [exact Hwt | split; [exact Hlog|]].
  intros now key ids Hget. rewrite cache_facts.Get_answer in Hget.
  destruct (lookup (items (calls l0 cs)) (KObjectsList key)) as [it|] eqn:El; [|discriminate].
  destruct (gcache_facts.lookup_Some _ _ _ El) as [Hin _].
  rewrite wellTyped_spec in Hwt. destruct (Hwt it Hin) as [k [o [oids [_ Hv]]]].
  rewrite Hv in Hget. destruct (gcache.IsExpired it now); [discriminate|].
  injection Hget as <-. discriminate.
Qed.

Lemma constructed_cache_stays_well_typed_witness :
  NewObjectsListCache small.config = Some small.empty /\
  logger (calls (E := cid.text_id) small.empty
            [CallPut 0 scenario.key_a [scenario.id1];
             CallPut 1 scenario.key_z [];
             CallGet 2 scenario.key_z;
             CallClean 3 "a/b/d.txt" scenario.C1;
             CallGet 4 scenario.key_a]) = [].
Proof.
  split; [reflexivity|].
  exact (proj1 (proj2 (@constructed_cache_stays_well_typed string cid.text_id small.config
                         small.empty
                         [CallPut 0 scenario.key_a [scenario.id1];
                          CallPut 1 scenario.key_z [];
                          CallGet 2 scenario.key_z;
                          CallClean 3 "a/b/d.txt" scenario.C1;
                          CallGet 4 scenario.key_a] eq_refl))).
Defined.

End CacheBehaviour.

(** ** The peers read from the settings *)

Module Peers.

Import gate.
Local Open Scope string_scope.

Lemma append_assoc (a b c : string) : (a ++ b) ++ c = a ++ (b ++ c).
Proof. induction a as [|x a IH]; simpl; [reflexivity | now rewrite IH]. Qed.

Lemma append_length (a b : string) :
  String.length (a ++ b) = (String.length a + String.length b)%nat.
Proof. induction a as [|x a IH]; simpl; [reflexivity | now rewrite IH]. Qed.

Lemma append_inj_r (a b s : string) : a ++ s = b ++ s -> a = b.
Proof.
  revert b. induction a as [|x a IH]; intros [|y b] H; simpl in H.
  - reflexivity.
  - exfalso. apply (f_equal String.length) in H. simpl in H.
    rewrite append_length in H. lia.
  - exfalso. apply (f_equal String.length) in H. simpl in H.
    rewrite append_length in H. lia.
  - injection H as -> H. f_equal. now apply IH.
Qed.

Lemma Itoa_inj (i j : nat) : strconv.Itoa i = strconv.Itoa j -> i = j.
Proof.
  unfold strconv.Itoa. intros H. apply DecimalNat.Unsigned.to_uint_inj.
  apply (f_equal NilEmpty.uint_of_string) in H. rewrite !NilEmpty.usu in H.
  now injection H.
Qed.

(** Different indices read different keys. *)
Lemma peerKey_inj (i j : nat) (suffix : string) :
  peerKey i ++ suffix = peerKey j ++ suffix -> i = j.
Proof.
  unfold peerKey. intros H. apply append_inj_r in H. apply append_inj_r in H.
  simpl in H. apply Itoa_inj.
  repeat (injection H as H). exact H.
Qed.

Section Facts.

Variable W : Type.
Variable GetString : string -> string.
Variable GetFloat64 : string -> W.

Local Abbreviation address i := (GetString (peerKey i ++ "address")).

Lemma fetchPeersFrom_run (m : nat) :
  forall (fuel i : nat) (l : Logger) (acc : list (pool.Peer W)),
    (forall j, (j < m)%nat -> address (i + j) <> "") ->
    address (i + m) = "" ->
    (m < fuel)%nat ->
    fetchPeersFrom GetString GetFloat64 fuel i l acc =
    Some (Warn l "skip, empty address" [],
          (acc ++ map (peerAt GetString GetFloat64) (seq i m))%list).
Proof.
  induction m as [|m IH]; intros fuel i l acc Hfull Hempty Hfuel;
    (destruct fuel as [|fuel]; [lia|]); cbn [fetchPeersFrom].
  - rewrite Nat.add_0_r in Hempty. rewrite Hempty. simpl. now rewrite app_nil_r.
  - assert (H0 : address i <> "") by (rewrite <- (Nat.add_0_r i); apply Hfull; lia).
    destruct (String.eqb (address i) "") eqn:E; [apply String.eqb_eq in E; contradiction|].
    rewrite (IH fuel (S i) l).
    + cbn [seq map]. rewrite <- app_assoc. reflexivity.
    + intros j Hj. replace (S i + j)%nat with (i + S j)%nat by lia. apply Hfull. lia.
    + replace (S i + m)%nat with (i + S m)%nat by lia. exact Hempty.
    + lia.
Qed.

(** X11.  fetchPeers reads the peers up to the first index without an address.
    When the indices below [n] have an address and index [n] has none, the
    result is the [n] peers of these indices, in order, each with the weight
    set at its index, and one warning is logged; what is set at indices
    above [n] is never read. *)
Theorem fetchPeers_reads_up_to_first_gap (n fuel : nat) (l : Logger) :
  (forall i, (i < n)%nat -> address i <> "") ->
  address n = "" ->
  (n < fuel)%nat ->
  fetchPeers GetString GetFloat64 fuel l =
  Some (Warn l "skip, empty address" [], map (peerAt GetString GetFloat64) (seq 0 n)).
Proof.
  intros Hfull Hempty Hfuel. unfold fetchPeers.
  exact (@fetchPeersFrom_run n fuel 0%nat l [] Hfull Hempty Hfuel).
Qed.

Lemma first_gap_or_none (b : nat) :
  (exists n, (n <= b)%nat /\ address n = "" /\ forall i, (i < n)%nat -> address i <> "") \/
  (forall i, (i <= b)%nat -> address i <> "").
Proof.
  induction b as [|b [[n [Hn [He Hl]]]|Hall]].
  - destruct (string_dec (address 0) "") as [E|E].
    + left. exists 0%nat. repeat split; [lia | exact E | intros i Hi; lia].
    + right. intros i Hi. replace i with 0%nat by lia. exact E.
  - left. exists n. repeat split; [lia | exact He | exact Hl].
  - destruct (string_dec (address (S b)) "") as [E|E].
    + left. exists (S b). repeat split; [lia | exact E|].
      intros i Hi. apply Hall. lia.
    + right. intros i Hi. destruct (Nat.eq_dec i (S b)) as [->|Hne]; [exact E|].
      apply Hall. lia.
Qed.

Lemma NoDup_map_inj {A B : Type} (f : A -> B) (l : list A) :
  (forall x y, f x = f y -> x = y) -> NoDup l -> NoDup (map f l).
Proof.
  intros Hinj. induction 1 as [|a l Hnin Hnd IH]; simpl; constructor; [|exact IH].
  intros Hin. apply in_map_iff in Hin. destruct Hin as [y [Hy Hyin]].
  apply Hinj in Hy. now subst y.
Qed.

(** X12.  fetchPeers ends.  The settings hold finitely many keys, so some index
    has no address: the loop stops there, after no more turns than there are
    keys set plus one, and never returns more peers than there are keys. *)
Theorem fetchPeers_terminates (ks : list string) (l : Logger) :
  (forall k, GetString k <> "" -> In k ks) ->
  exists n,
    (n <= List.length ks)%nat /\
    forall fuel, (n < fuel)%nat ->
      fetchPeers GetString GetFloat64 fuel l =
      Some (Warn l "skip, empty address" [], map (peerAt GetString GetFloat64) (seq 0 n)).
Proof.
  intros Hfin. destruct (first_gap_or_none (List.length ks)) as [[n [Hn [He Hl]]]|Hall].
  - exists n. split; [exact Hn|]. intros fuel Hfuel.
    exact (@fetchPeersFrom_run n fuel 0%nat l [] Hl He Hfuel).
  - exfalso.
    assert (Hnd : NoDup (map (fun i => peerKey i ++ "address") (seq 0 (S (List.length ks))))).
    { apply NoDup_map_inj; [|apply seq_NoDup]. intros x y. apply peerKey_inj. }
    assert (Hincl : incl (map (fun i => peerKey i ++ "address") (seq 0 (S (List.length ks)))) ks).
    { intros k Hk. apply in_map_iff in Hk. destruct Hk as [i [<- Hi]].
      apply Hfin. apply Hall. apply in_seq in Hi. lia. }
    pose proof (NoDup_incl_length Hnd Hincl) as Hlen.
    rewrite length_map, length_seq in Hlen. lia.
Qed.

End Facts.

Lemma fetchPeers_reads_up_to_first_gap_witness :
  fetchPeers example.GetString example.GetFloat64 10 [] =
  Some ([mkLogEntry WarnLevel "skip, empty address" []],
        [pool.mkPeer "node1:8080" 3%nat; pool.mkPeer "node2:8080" 1%nat]).
Proof.
  assert (Hfull : forall i, (i < 2)%nat ->
                    example.GetString (peerKey i ++ "address") <> "").
  { intros i Hi. destruct i as [|[|i]]; [discriminate | discriminate | lia]. }
  assert (Hfuel : (2 < 10)%nat) by lia.
  exact (eq_trans (@fetchPeers_reads_up_to_first_gap nat example.GetString
                     example.GetFloat64 2 10 [] Hfull eq_refl Hfuel) eq_refl).
Defined.

Lemma fetchPeers_terminates_witness :
  exists n,
    (n <= 3)%nat /\
    forall fuel, (n < fuel)%nat ->
      fetchPeers example.GetString example.GetFloat64 fuel [] =
      Some (Warn [] "skip, empty address" [],
            map (peerAt example.GetString example.GetFloat64) (seq 0 n)).
Proof.
  assert (Hfin : forall k, example.GetString k <> "" -> In k example.setKeys).
  { intros k. unfold example.GetString, example.setKeys.
    destruct (String.eqb k "peers.0.address") eqn:E0;
      [apply String.eqb_eq in E0; subst; intros _; simpl; tauto|].
    destruct (String.eqb k "peers.1.address") eqn:E1;
      [apply String.eqb_eq in E1; subst; intros _; simpl; tauto|].
    destruct (String.eqb k "peers.3.address") eqn:E3;
      [apply String.eqb_eq in E3; subst; intros _; simpl; tauto|].
    intros H. contradiction. }
  exact (@fetchPeers_terminates nat example.GetString example.GetFloat64
           example.setKeys [] Hfin).
Defined.

End Peers.

(** ** Public keys given in hexadecimal *)

Module PublicKeys.

Import authmate.
Local Open Scope string_scope.

(** Strings, two characters at a time. *)
Lemma string_pair_ind (P : string -> Prop) :
  P EmptyString ->
  (forall c, P (String c EmptyString)) ->
  (forall p q rest, P rest -> P (String p (String q rest))) ->
  forall s, P s.
Proof.
  intros H0 H1 H2 s.
  assert (H : P s /\ forall c, P (String c s)).
  { induction s as [|a s [IHs IHc]].
    - split; [exact H0 | exact H1].
    - split; [apply IHc|]. intros c. apply H2. exact IHs. }
  exact (proj1 H).
Qed.

Lemma decode_encoded_byte (x : Byte.byte) (rest : string) :
  hex.DecodeString
    (String (hex.hexDigit (Byte.to_nat x / 16))
       (String (hex.hexDigit (Byte.to_nat x mod 16)) rest)) =
  match hex.DecodeString rest with
  | Some xs => Some (x :: xs)
  | None => None
  end.
Proof. destruct x; reflexivity. Qed.

Lemma DecodeString_EncodeToString (data : list Byte.byte) :
  hex.DecodeString (hex.EncodeToString data) = Some data.
Proof.
  induction data as [|x xs IH]; [reflexivity|].
  cbn [hex.EncodeToString]. now rewrite decode_encoded_byte, IH.
Qed.

Lemma DecodeString_length (s : string) (data : list Byte.byte) :
  hex.DecodeString s = Some data -> String.length s = (2 * List.length data)%nat.
Proof.
  revert data. induction s as [| c | p q rest IH] using string_pair_ind; intros data H.
  - injection H as <-. reflexivity.
  - discriminate H.
  - cbn [hex.DecodeString] in H.
    destruct (hex.fromHexChar p) as [a|]; [|discriminate].
    destruct (hex.fromHexChar q) as [b|]; [|discriminate].
    destruct (Byte.of_nat (a * 16 + b)) as [x|]; [|discriminate].
    destruct (hex.DecodeString rest) as [xs|]; [|discriminate].
    injection H as <-. simpl. rewrite (IH xs eq_refl). lia.
Qed.

Section Load.

Variables X PublicKey : Type.
Variable UnmarshalPublicKey : list Byte.byte -> option PublicKey.
Variable Quote : string -> string.

(** X13.  LoadPublicKey reads back what hex.EncodeToString wrote.  For every byte
    string, loading its hexadecimal form gives the key that
    UnmarshalPublicKey makes of the bytes, and the "couldn't unmarshal" error
    when it makes none; it never gives the "unknown key format" error. *)
Theorem LoadPublicKey_of_encoded (data : list Byte.byte) :
  LoadPublicKey X UnmarshalPublicKey Quote (hex.EncodeToString data) =
  match UnmarshalPublicKey data with
  | Some key => Done key
  | None =>
      Failed (Message ("couldn't unmarshal public key ("
                       ++ Quote (hex.EncodeToString data) ++ ")"))
  end.
Proof.
  unfold LoadPublicKey. now rewrite DecodeString_EncodeToString.
Qed.

(** X14.  LoadPublicKey succeeds on hexadecimal input only.  When it returns a
    key, the input has two characters for each byte of some byte string that
    UnmarshalPublicKey accepts; an input of odd length is refused with the
    "unknown key format" error, whatever UnmarshalPublicKey would say. *)
Theorem LoadPublicKey_needs_whole_bytes (val : string) :
  (forall key,
      LoadPublicKey X UnmarshalPublicKey Quote val = Done key ->
      exists data,
        hex.DecodeString val = Some data /\
        UnmarshalPublicKey data = Some key /\
        String.length val = (2 * List.length data)%nat)
  /\
  (Nat.odd (String.length val) = true ->
   LoadPublicKey X UnmarshalPublicKey Quote val =
   Failed (Message ("unknown key format (" ++ Quote val ++ "), expect: hex-string"))).
Proof.
  unfold LoadPublicKey. split.
  - intros key H. destruct (hex.DecodeString val) as [data|] eqn:Ed; [|discriminate].
    destruct (UnmarshalPublicKey data) as [k|] eqn:Eu; [|discriminate].
    injection H as <-. exists data. repeat split; [exact Eu|].
    now apply DecodeString_length.
  - intros Hodd. destruct (hex.DecodeString val) as [data|] eqn:Ed; [|reflexivity].
    exfalso. apply DecodeString_length in Ed. rewrite Ed in Hodd.
    rewrite Nat.odd_mul in Hodd. discriminate Hodd.
Qed.

End Load.

Lemma LoadPublicKey_needs_whole_bytes_witness :
  LoadPublicKey unit (fun data => Some data) (fun s => s) "0aF" =
  Failed (Message "unknown key format (0aF), expect: hex-string") /\
  LoadPublicKey unit (fun data => Some data) (fun s => s) "0aFf" =
  Done [Byte.x0a; Byte.xff].
Proof.
  split; [|reflexivity].
  exact (proj2 (@LoadPublicKey_needs_whole_bytes unit (list Byte.byte)
                  (fun data => Some data) (fun s => s) "0aF") eq_refl).
Defined.

End PublicKeys.

(** ** The tokens of the gates *)

Module GateTokens.

Import authmate.

(** Writing one element of a slice. *)
Lemma update_length {A : Type} (l : list A) (i : nat) (x : A) :
  (i < List.length l)%nat ->
  List.length (firstn i l ++ x :: skipn (S i) l) = List.length l.
Proof.
  intros Hi. rewrite length_app, length_firstn. cbn [List.length].
  rewrite length_skipn. lia.
Qed.

Lemma update_nth {A : Type} (l : list A) (i j : nat) (x : A) :
  (i < List.length l)%nat ->
  nth_error (firstn i l ++ x :: skipn (S i) l) j =
  if Nat.eqb j i then Some x else nth_error l j.
Proof.
  intros Hi. destruct (Nat.eqb j i) eqn:E.
  - apply Nat.eqb_eq in E. subst j.
    rewrite nth_error_app2 by (rewrite length_firstn; lia).
    rewrite length_firstn. replace (i - Nat.min i (List.length l))%nat with 0%nat by lia.
    reflexivity.
  - apply Nat.eqb_neq in E. destruct (Nat.lt_ge_cases j i) as [Hlt|Hge].
    + rewrite nth_error_app1 by (rewrite length_firstn; lia).
      rewrite nth_error_firstn.
      assert ((j <? i)%nat = true) as -> by (apply Nat.ltb_lt; exact Hlt). reflexivity.
    + rewrite nth_error_app2 by (rewrite length_firstn; lia).
      rewrite length_firstn. replace (j - Nat.min i (List.length l))%nat with (S (j - S i)) by lia.
      cbn [nth_error]. rewrite nth_error_skipn. f_equal. lia.
Qed.

Section Facts.

Variables X CID PrivateKey PublicKey Wallet OwnerID Ctx Sig Entropy GateData : Type.
Variable NEO3WalletFromPublicKey : PublicKey -> X + Wallet.
Variable NewIDFromNeo3Wallet : Wallet -> OwnerID.
Variable PublicKeyOf : PrivateKey -> PublicKey.
Variable TableUnmarshalJSON : Table CID -> list Byte.byte -> Table CID * option X.
Variable NewContainerContext : Ctx.
Variable CtxUnmarshalJSON : Ctx -> list Byte.byte -> Ctx * option X.
Variable ForPut : Ctx -> Ctx.
Variable ApplyTo : option CID -> Ctx -> Ctx.
Variable SignBearer :
  PrivateKey -> Entropy -> BearerToken CID OwnerID Sig -> option Sig * option X.
Variable SignSession :
  PrivateKey -> Entropy -> SessionToken Ctx OwnerID Sig -> option Sig * option X.
Variable NewUUIDBinary : Entropy -> X + list Byte.byte.
Variable MarshalPublicKey : PublicKey -> list Byte.byte.
Variable NewGateData : PublicKey -> BearerToken CID OwnerID Sig -> GateData.
Variable setSessionToken : GateData -> SessionToken Ctx OwnerID Sig -> GateData.

Local Abbreviation bearer := (buildBearerToken NEO3WalletFromPublicKey NewIDFromNeo3Wallet SignBearer).
Local Abbreviation bearersFrom :=
  (buildBearerTokensFrom NEO3WalletFromPublicKey NewIDFromNeo3Wallet SignBearer).
Local Abbreviation session :=
  (buildSessionToken SignSession NewUUIDBinary MarshalPublicKey).
Local Abbreviation sessionsFrom :=
  (buildSessionTokensFrom SignSession NewUUIDBinary MarshalPublicKey).

Lemma loop_all_or_first_error {T : Type} (build : nat -> PublicKey -> outcome X T)
    (loop : list PublicKey -> nat -> list T -> outcome X (list T)) :
  (forall i acc, loop [] i acc = Done acc) ->
  (forall k rest i acc,
      loop (k :: rest) i acc =
      match build i k with
      | Done t => loop rest (S i) (acc ++ [t])
      | Failed e => Failed e
      | Panic => Panic
      end) ->
  (forall i k, build i k <> Panic) ->
  forall keys i acc,
    match loop keys i acc with
    | Done ts =>
        exists new, ts = acc ++ new /\ List.length new = List.length keys /\
          forall j k, nth_error keys j = Some k ->
                      exists t, nth_error new j = Some t /\ build (i + j)%nat k = Done t
    | Failed e =>
        exists j k,
          nth_error keys j = Some k /\ build (i + j)%nat k = Failed e /\
          forall j' k', (j' < j)%nat -> nth_error keys j' = Some k' ->
                        exists t, build (i + j')%nat k' = Done t
    | Panic => False
    end.
Proof.
  intros Hnil Hcons Hnp keys. induction keys as [|k rest IH]; intros i acc.
  - rewrite Hnil. exists []. rewrite app_nil_r. repeat split.
    intros j k' H. destruct j; discriminate H.
  - rewrite Hcons. destruct (build i k) as [t|e|] eqn:Eb.
    + specialize (IH (S i) (acc ++ [t])).
      destruct (loop rest (S i) (acc ++ [t])) as [ts|e|]; [| |exact IH].
      * destruct IH as [new [-> [Hlen Hnth]]]. exists (t :: new).
        rewrite <- app_assoc. repeat split; [simpl; now rewrite Hlen|].
        intros [|j] k' H; cbn [nth_error] in *.
        -- injection H as <-. exists t. rewrite Nat.add_0_r. now split.
        -- destruct (Hnth j k' H) as [t' [H1 H2]]. exists t'.
           replace (i + S j)%nat with (S i + j)%nat by lia. now split.
      * destruct IH as [j [k' [Hk [Hf Hbefore]]]]. exists (S j), k'.
        replace (i + S j)%nat with (S i + j)%nat by lia. repeat split; [exact Hk | exact Hf|].
        intros [|j'] k'' Hlt H; cbn [nth_error] in H.
        -- injection H as <-. exists t. now rewrite Nat.add_0_r.
        -- replace (i + S j')%nat with (S i + j')%nat by lia. apply Hbefore; [lia | exact H].
    + exists 0%nat, k. rewrite Nat.add_0_r. repeat split; [exact Eb|].
      intros j' k' Hlt. lia.
    + exact (Hnp i k Eb).
Qed.

Lemma bearer_no_panic key table k rnd : bearer key table k rnd <> Panic.
Proof.
  unfold buildBearerToken, ownerIDFromNeoFSKey.
  destruct (NEO3WalletFromPublicKey k); [discriminate|].
  destruct (SignBearer _ _ _) as [s [e|]]; discriminate.
Qed.

Lemma session_no_panic key oid ctx k r1 r2 : session key oid ctx k r1 r2 <> Panic.
Proof.
  unfold buildSessionToken. destruct (NewUUIDBinary r1); [discriminate|].
  destruct (SignSession _ _ _) as [s [e|]]; discriminate.
Qed.

Lemma bearers_all_or_first_error (key : PrivateKey) (table : Table CID)
    (gatesKeys : list PublicKey) (rnd : nat -> Entropy) :
  all_or_first_error (fun j k => bearer key table k (rnd j)) gatesKeys
    (buildBearerTokens NEO3WalletFromPublicKey NewIDFromNeo3Wallet SignBearer
       key table gatesKeys rnd).
Proof.
  unfold buildBearerTokens, all_or_first_error.
  pose proof (@loop_all_or_first_error _ (fun j k => bearer key table k (rnd j))
                (fun keys i acc => bearersFrom key table keys rnd i acc)
                (fun i acc => eq_refl) (fun k rest i acc => eq_refl)
                (fun i k => @bearer_no_panic key table k (rnd i)) gatesKeys 0%nat []) as H.
  cbv beta in H.
  destruct (bearersFrom key table gatesKeys rnd 0 []) as [ts|e|]; [| exact H | exact H].
  destruct H as [new [-> [Hlen Hnth]]]. now split.
Qed.

(** X15.  buildBearerTokens is all or nothing.  It returns one token per gate key,
    in the order of the keys, the [j]-th being the token buildBearerToken
    makes for the [j]-th key; or, when a key fails, the error of the first
    key that fails and no token at all. *)
Theorem buildBearerTokens_all_or_nothing (key : PrivateKey) (table : Table CID)
    (gatesKeys : list PublicKey) (rnd : nat -> Entropy) :
  all_or_first_error (fun j k => bearer key table k (rnd j)) gatesKeys
    (buildBearerTokens NEO3WalletFromPublicKey NewIDFromNeo3Wallet SignBearer
       key table gatesKeys rnd).
Proof. apply bearers_all_or_first_error. Qed.

Lemma fillGates_ok (keys : list PublicKey) :
  forall (bts : list (BearerToken CID OwnerID Sig)) (i : nat),
    (forall j k, nth_error keys j = Some k -> exists t, nth_error bts (i + j) = Some t) ->
    exists gs,
      fillGates X NewGateData keys bts i = Done gs /\
      List.length gs = List.length keys /\
      forall j k, nth_error keys j = Some k ->
                  exists t, nth_error bts (i + j) = Some t /\
                            nth_error gs j = Some (NewGateData k t).
Proof.
  induction keys as [|k rest IH]; intros bts i H; cbn [fillGates].
  - exists []. repeat split. intros j k Hj. destruct j; discriminate Hj.
  - destruct (H 0%nat k eq_refl) as [t Ht]. rewrite Nat.add_0_r in Ht. rewrite Ht.
    destruct (IH bts (S i)) as [gs [-> [Hlen Hnth]]].
    { intros j k' Hj. replace (S i + j)%nat with (i + S j)%nat by lia.
      apply (H (S j) k'). exact Hj. }
    exists (NewGateData k t :: gs). repeat split; [simpl; now rewrite Hlen|].
    intros [|j] k' Hj; cbn [nth_error] in *.
    + injection Hj as <-. exists t. rewrite Nat.add_0_r. now split.
    + destruct (Hnth j k' Hj) as [t' [H1 H2]]. exists t'.
      replace (i + S j)%nat with (S i + j)%nat by lia. now split.
Qed.

Lemma setSessionTokens_ok (sts : list (SessionToken Ctx OwnerID Sig)) :
  forall (gates : list GateData) (i : nat),
    (i + List.length sts <= List.length gates)%nat ->
    exists gs,
      setSessionTokens X setSessionToken gates sts i = Done gs /\
      List.length gs = List.length gates /\
      (forall j, (j < i)%nat -> nth_error gs j = nth_error gates j) /\
      (forall j st, nth_error sts j = Some st ->
                    exists g, nth_error gates (i + j) = Some g /\
                              nth_error gs (i + j) = Some (setSessionToken g st)).
Proof.
  induction sts as [|tok rest IH]; intros gates i Hlen; cbn [setSessionTokens].
  - exists gates. repeat split. intros j st Hj. destruct j; discriminate Hj.
  - cbn [List.length] in Hlen.
    assert (Hi : (i < List.length gates)%nat) by lia.
    destruct (nth_error gates i) as [g|] eqn:Eg;
      [|apply nth_error_None in Eg; lia].
    destruct (IH (firstn i gates ++ setSessionToken g tok :: skipn (S i) gates) (S i))
      as [gs [-> [Hl [Hbefore Hset]]]].
    { rewrite update_length by exact Hi. lia. }
    exists gs. rewrite update_length in Hl by exact Hi.
    split; [reflexivity | split; [exact Hl | split]].
    + intros j Hj. rewrite Hbefore by lia. rewrite update_nth by exact Hi.
      assert ((j =? i)%nat = false) as -> by (apply Nat.eqb_neq; lia). reflexivity.
    + intros [|j] st Hj; cbn [nth_error] in Hj.
      * injection Hj as <-. exists g. rewrite Nat.add_0_r. split; [exact Eg|].
        rewrite Hbefore by lia. rewrite update_nth by exact Hi.
        now rewrite Nat.eqb_refl.
      * destruct (Hset j st Hj) as [g' [Hg' Hgs]].
        rewrite update_nth in Hg' by exact Hi.
        assert ((S i + j =? i)%nat = false) as E by (apply Nat.eqb_neq; lia).
        rewrite E in Hg'. exists g'.
        replace (i + S j)%nat with (S i + j)%nat by lia. now split.
Qed.

(** X16.  createTokens makes one gate per key and never indexes out of range.
    When it succeeds, the gates are as many as the gate keys and in their
    order: the [i]-th holds the [i]-th key with the bearer token built for
    that key over the eACL table, and, when a session token was asked for
    and only then, the session token built for that key.  The slices it
    indexes are always long enough: it does not panic. *)
Theorem createTokens_one_gate_per_key
    (options : IssueSecretOptions PrivateKey PublicKey) (cid : CID)
    (rndB : nat -> Entropy) (rndS : nat -> Entropy * Entropy) :
  match createTokens NEO3WalletFromPublicKey NewIDFromNeo3Wallet PublicKeyOf
          TableUnmarshalJSON NewContainerContext CtxUnmarshalJSON ForPut ApplyTo
          SignBearer SignSession NewUUIDBinary MarshalPublicKey NewGateData
          setSessionToken options cid rndB rndS with
  | Done gates =>
      exists table,
        buildEACLTable TableUnmarshalJSON cid (EACLRules options) = (table, None) /\
        List.length gates = List.length (GatesPublicKeys options) /\
        forall i k,
          nth_error (GatesPublicKeys options) i = Some k ->
          exists bt,
            bearer (NeoFSKey options) table k (rndB i) = Done bt /\
            if SessionTkn options
            then exists ctx oid st,
                buildContext NewContainerContext CtxUnmarshalJSON ForPut ApplyTo
                  (ContextRules options) = Done ctx /\
                ownerIDFromNeoFSKey NEO3WalletFromPublicKey NewIDFromNeo3Wallet
                  (PublicKeyOf (NeoFSKey options)) = Done oid /\
                session (NeoFSKey options) oid ctx k (fst (rndS i)) (snd (rndS i)) = Done st /\
                nth_error gates i = Some (setSessionToken (NewGateData k bt) st)
            else nth_error gates i = Some (NewGateData k bt)
  | Failed _ => True
  | Panic => False
  end.
Proof.
  unfold createTokens.
  destruct (buildEACLTable TableUnmarshalJSON cid (EACLRules options)) as [table [e|]] eqn:Et;
    [exact I|].
  pose proof (@bearers_all_or_first_error (NeoFSKey options) table
                (GatesPublicKeys options) rndB) as Hb.
  unfold all_or_first_error in Hb.
  destruct (buildBearerTokens NEO3WalletFromPublicKey NewIDFromNeo3Wallet SignBearer
              (NeoFSKey options) table (GatesPublicKeys options) rndB)
    as [bts|e|]; [|exact I|exact Hb].
  destruct Hb as [Hblen Hbnth].
  destruct (@fillGates_ok (GatesPublicKeys options) bts 0%nat) as [gs [-> [Hglen Hgnth]]].
  { intros j k Hj. destruct (Hbnth j k Hj) as [t [Ht _]]. exists t. exact Ht. }
  assert (Hgate : forall i k, nth_error (GatesPublicKeys options) i = Some k ->
                    exists bt, bearer (NeoFSKey options) table k (rndB i) = Done bt /\
                               nth_error gs i = Some (NewGateData k bt)).
  { intros i k Hk. destruct (Hgnth i k Hk) as [t [Ht Hg]]. cbn [Nat.add] in Ht.
    destruct (Hbnth i k Hk) as [t' [Ht' Hbt]]. rewrite Ht in Ht'. injection Ht' as <-.
    exists t. now split. }
  destruct (SessionTkn options).
  - destruct (buildContext NewContainerContext CtxUnmarshalJSON ForPut ApplyTo
                (ContextRules options)) as [ctx|e|] eqn:Ec; [|exact I|].
    2:{ unfold buildContext in Ec.
        destruct (negb _); [|discriminate].
        destruct (CtxUnmarshalJSON _ _) as [c [e|]]; discriminate. }
    destruct (ownerIDFromNeoFSKey NEO3WalletFromPublicKey NewIDFromNeo3Wallet
                (PublicKeyOf (NeoFSKey options))) as [oid|e|] eqn:Eo; [|exact I|].
    2:{ unfold ownerIDFromNeoFSKey in Eo.
        destruct (NEO3WalletFromPublicKey _); discriminate. }
    pose proof (@loop_all_or_first_error _
                  (fun j k => session (NeoFSKey options) oid ctx k (fst (rndS j)) (snd (rndS j)))
                  (fun keys i acc => sessionsFrom (NeoFSKey options) oid ctx keys rndS i acc)
                  (fun i acc => eq_refl) (fun k rest i acc => eq_refl)
                  (fun i k => @session_no_panic (NeoFSKey options) oid ctx k _ _)
                  (GatesPublicKeys options) 0%nat []) as Hs.
    cbv beta in Hs. unfold buildSessionTokens.
    destruct (sessionsFrom (NeoFSKey options) oid ctx (GatesPublicKeys options) rndS 0 [])
      as [sts|e|]; [|exact I|exact Hs].
    destruct Hs as [new [-> [Hslen Hsnth]]]. cbn [app] in *.
    destruct (@setSessionTokens_ok new gs 0%nat) as [gs' [-> [Hl' [_ Hset]]]]; [simpl; lia|].
    exists table. split; [reflexivity | split; [lia|]].
    intros i k Hk. destruct (Hgate i k Hk) as [bt [Hbt Hg]]. exists bt. split; [exact Hbt|].
    destruct (Hsnth i k Hk) as [st [Hst Hbuild]]. cbn [Nat.add] in Hbuild.
    destruct (Hset i st Hst) as [g [Hg' Hgs']]. cbn [Nat.add] in Hg', Hgs'.
    rewrite Hg in Hg'. injection Hg' as <-.
    exists ctx, oid, st. repeat split; [exact Hbuild | exact Hgs'].
  - exists table. split; [reflexivity | split; [exact Hglen|]].
    intros i k Hk. destruct (Hgate i k Hk) as [bt [Hbt Hg]]. exists bt. now split.
Qed.


End Facts.

(** X17.  buildSessionTokens is all or nothing, as buildBearerTokens is: one session token
    per gate key, in the order of the keys, or the error of the first key
    that fails. *)
Theorem buildSessionTokens_all_or_nothing
    (X PrivateKey PublicKey OwnerID Ctx Sig Entropy : Type)
    (SignSession :
       PrivateKey -> Entropy -> SessionToken Ctx OwnerID Sig -> option Sig * option X)
    (NewUUIDBinary : Entropy -> X + list Byte.byte)
    (MarshalPublicKey : PublicKey -> list Byte.byte)
    (key : PrivateKey) (oid : OwnerID) (ctx : Ctx)
    (gatesKeys : list PublicKey) (rnd : nat -> Entropy * Entropy) :
  all_or_first_error
    (fun j k => buildSessionToken SignSession NewUUIDBinary MarshalPublicKey
                  key oid ctx k (fst (rnd j)) (snd (rnd j)))
    gatesKeys
    (buildSessionTokens SignSession NewUUIDBinary MarshalPublicKey key oid ctx gatesKeys rnd).
Proof.
  unfold buildSessionTokens, all_or_first_error.
  pose proof (@loop_all_or_first_error X PublicKey _
                (fun j k => buildSessionToken SignSession NewUUIDBinary MarshalPublicKey
                              key oid ctx k (fst (rnd j)) (snd (rnd j)))
                (fun keys i acc =>
                   buildSessionTokensFrom SignSession NewUUIDBinary MarshalPublicKey
                     key oid ctx keys rnd i acc)
                (fun i acc => eq_refl) (fun k rest i acc => eq_refl)
                (fun i k => @session_no_panic X PrivateKey PublicKey OwnerID Ctx Sig Entropy
                              SignSession NewUUIDBinary MarshalPublicKey key oid ctx k _ _)
                gatesKeys 0%nat []) as H.
  cbv beta in H.
  destruct (buildSessionTokensFrom SignSession NewUUIDBinary MarshalPublicKey
              key oid ctx gatesKeys rnd 0 []) as [ts|e|]; [| exact H | exact H].
  destruct H as [new [-> [Hlen Hnth]]]. now split.
Qed.

(** The theorems at work on the stand-ins: two gates with their session
    tokens for the keys 5 and 7, and the error of the key 0 when it is among
    the keys. *)
Lemma createTokens_one_gate_per_key_witness :
  (exists gates, example.run [5; 7]%nat true = Done gates /\ List.length gates = 2%nat) /\
  example.run [5; 0; 7]%nat true =
    Failed (Wrap "failed to build bearer tokens"%string
              (External "invalid public key"%string)).
Proof.
  split; [|reflexivity].
  pose proof (@createTokens_one_gate_per_key _ _ _ _ _ _ _ _ _ _
                example.NEO3WalletFromPublicKey example.NewIDFromNeo3Wallet
                example.PublicKeyOf example.TableUnmarshalJSON example.NewContainerContext
                example.CtxUnmarshalJSON example.ForPut example.ApplyTo example.SignBearer
                example.SignSession example.NewUUIDBinary example.MarshalPublicKey
                example.NewGateData example.setSessionToken
                (example.options [5; 7]%nat true) "C1"%string (fun i => i) (fun i => (i, i)))
    as H.
  fold (example.run [5; 7]%nat true) in H.
  destruct (example.run [5; 7]%nat true) as [gates|e|] eqn:E; [|discriminate E|destruct H].
  exists gates. split; [reflexivity|].
  destruct H as [table [_ [Hlen _]]]. exact Hlen.
Defined.

Lemma buildBearerTokens_all_or_nothing_witness :
  exists j k,
    nth_error [5; 0; 7]%nat j = Some k /\
    buildBearerToken example.NEO3WalletFromPublicKey example.NewIDFromNeo3Wallet
      example.SignBearer 42%nat (mkTable (Some "C1"%string) []) k j
    = Failed (External "invalid public key"%string).
Proof.
  pose proof (@buildBearerTokens_all_or_nothing _ _ _ _ _ _ _ _
                example.NEO3WalletFromPublicKey example.NewIDFromNeo3Wallet
                example.SignBearer 42%nat (mkTable (Some "C1"%string) [])
                [5; 0; 7]%nat (fun i => i)) as H.
  unfold all_or_first_error in H.
  change (buildBearerTokens example.NEO3WalletFromPublicKey example.NewIDFromNeo3Wallet
            example.SignBearer 42%nat (mkTable (Some "C1"%string) []) [5; 0; 7]%nat
            (fun i => i))
    with (@Failed string (list example.Bearer) (External "invalid public key"%string)) in H.
  destruct H as [j [k [Hk [Hf _]]]]. exists j, k. split; [exact Hk | exact Hf].
Defined.


End GateTokens.
